(** * Planar beam frame solver (simple_fem_bridge_demo.py)

    A shallow embedding of the classes [SimpleFEMBeam] and
    [ContinuousBridgeFEM]: element stiffness, equivalent nodal loads,
    global assembly, boundary-condition reduction, the solve step and the
    extraction of support reactions.

    The program computes with NumPy floats.  The embedding is written
    over an abstract scalar type (class [Scalar]) and an abstract dense
    solver (class [LinAlg], standing for [np.linalg.solve]), so that every
    structural property is proved for any arithmetic, rounding included.
    Properties that need the laws of arithmetic are proved for the exact
    instance over the real numbers, with Gaussian elimination with partial
    pivoting as the solver; the same definitions run on the canonical
    rationals [Qc]. *)

From Stdlib Require Import ZArith List Sorted Lia Reals Lra QArith Qcanon Qcabs.
From stdpp Require Import base list.
Import ListNotations.

Set Default Proof Using "Type".

(** ** Python exceptions and the error monad *)

Inductive PyError : Type :=
  | IndexError
  | AttributeError
  | ValueError
  | LinAlgError.

Inductive Exc (A : Type) : Type :=
  | Ok (a : A)
  | Raise (e : PyError).
Arguments Ok {A} a.
Arguments Raise {A} e.

Definition exc_bind {A B : Type} (m : Exc A) (f : A -> Exc B) : Exc B :=
  match m with
  | Ok a => f a
  | Raise e => Raise e
  end.

Declare Scope exc_scope.
Delimit Scope exc_scope with exc.
Notation "'do' x <- m ; k" := (exc_bind m (fun x => k))
  (at level 10, x name, m at level 100, k at level 200) : exc_scope.
Notation "'do' ' p <- m ; k" :=
  (exc_bind m (fun x => match x with p => k end))
  (at level 10, p pattern, m at level 100, k at level 200) : exc_scope.
Open Scope exc_scope.

Definition is_ok {A : Type} (m : Exc A) : bool :=
  match m with Ok _ => true | Raise _ => false end.

(** A [for] loop over a list that threads the loop state and stops at the
    first exception. *)
Fixpoint for_each {A S : Type} (l : list A) (body : A -> S -> Exc S) (s : S)
  : Exc S :=
  match l with
  | [] => Ok s
  | x :: l' => do s' <- body x s; for_each l' body s'
  end.

(** [[f(x) for x in l]] with a fallible [f]. *)
Fixpoint map_exc {A B : Type} (f : A -> Exc B) (l : list A) : Exc (list B) :=
  match l with
  | [] => Ok []
  | x :: l' => do y <- f x; do ys <- map_exc f l'; Ok (y :: ys)
  end.

(** [enumerate(l)] *)
Definition enumerate {A : Type} (l : list A) : list (nat * A) :=
  combine (seq 0 (length l)) l.

(** ** Python and NumPy indexing

    An index [i] into a sequence of length [n] denotes position [i] when
    [0 <= i < n], position [n + i] when [-n <= i < 0], and raises
    [IndexError] otherwise. *)

Definition py_index (n : nat) (i : Z) : option nat :=
  if ((0 <=? i) && (i <? Z.of_nat n))%Z then Some (Z.to_nat i)
  else if ((- Z.of_nat n <=? i) && (i <? 0))%Z then Some (Z.to_nat (Z.of_nat n + i))
  else None.

Definition getitem {A : Type} (l : list A) (i : Z) : Exc A :=
  match py_index (length l) i with
  | Some k => match l !! k with Some x => Ok x | None => Raise IndexError end
  | None => Raise IndexError
  end.

(** [l[i] = x] *)
Definition setitem {A : Type} (l : list A) (i : Z) (x : A) : Exc (list A) :=
  match py_index (length l) i with
  | Some k => Ok (<[k := x]> l)
  | None => Raise IndexError
  end.

(** [x in l] and [l.remove(x)] on lists of integers; [remove] deletes the
    first occurrence only. *)
Definition contains (x : Z) (l : list Z) : bool :=
  existsb (Z.eqb x) l.

Fixpoint list_remove_first (x : Z) (l : list Z) : list Z :=
  match l with
  | [] => []
  | y :: l' => if (x =? y)%Z then l' else y :: list_remove_first x l'
  end.

(** ** Scalars

    The operations the program applies to its floats. *)

Class Scalar (num : Type) : Type := {
  of_Z : Z -> num;
  nadd : num -> num -> num;
  nsub : num -> num -> num;
  nmul : num -> num -> num;
  ndiv : num -> num -> num;
  nneg : num -> num;
  npow : num -> nat -> num;
  nsqrt : num -> num;
  nabs : num -> num;
  nltb : num -> num -> bool;
  neqb : num -> num -> bool
}.

(** [np.linalg.solve(a, b)] *)
Class LinAlg (num : Type) : Type := {
  linalg_solve : list (list num) -> list num -> Exc (list num)
}.

Declare Scope num_scope.
Delimit Scope num_scope with num.
Infix "+" := nadd : num_scope.
Infix "-" := nsub : num_scope.
Infix "*" := nmul : num_scope.
Infix "/" := ndiv : num_scope.
Notation "- x" := (nneg x) : num_scope.
Infix "**" := npow (at level 30, right associativity) : num_scope.

Section Arrays.
Context {num : Type} `{Scalar num}.

Definition zero : num := of_Z 0.

(** [np.zeros(n)] and [np.zeros((r, c))] *)
Definition zeros (n : nat) : list num := repeat zero n.
Definition zeros2 (r c : nat) : list (list num) := repeat (zeros c) r.

(** [v[i] += x] *)
Definition iadd_at (v : list num) (i : Z) (x : num) : Exc (list num) :=
  match py_index (length v) i with
  | Some k => Ok (alter (fun y => (y + x)%num) k v)
  | None => Raise IndexError
  end.

(** [K[i, j] += x] *)
Definition iadd_at2 (K : list (list num)) (i j : Z) (x : num)
  : Exc (list (list num)) :=
  match py_index (length K) i with
  | Some r =>
      match K !! r with
      | Some row =>
          match py_index (length row) j with
          | Some c => Ok (<[r := alter (fun y => (y + x)%num) c row]> K)
          | None => Raise IndexError
          end
      | None => Raise IndexError
      end
  | None => Raise IndexError
  end.

(** [F[idx]] with a list of indices *)
Definition take_indices (F : list num) (idx : list Z) : Exc (list num) :=
  map_exc (getitem F) idx.

(** [K[np.ix_(rows, cols)]] *)
Definition ix_ (K : list (list num)) (rows cols : list Z)
  : Exc (list (list num)) :=
  map_exc (fun r => do row <- getitem K r; take_indices row cols) rows.

(** Inner product, matrix-vector product ([K @ U]) and [a - b]. *)
Fixpoint dot (a b : list num) : num :=
  match a, b with
  | x :: a', y :: b' => (x * y + dot a' b')%num
  | _, _ => zero
  end.

Definition matvec (K : list (list num)) (U : list num) : list num :=
  map (fun row => dot row U) K.

Fixpoint vsub (a b : list num) : list num :=
  match a, b with
  | x :: a', y :: b' => (x - y)%num :: vsub a' b'
  | _, _ => []
  end.
End Arrays.

(** ** class SimpleFEMBeam *)

Section Beam.
Context {num : Type} `{Scalar num}.
Local Open Scope num_scope.

Record SimpleFEMBeam : Type := {
  beam_L : num;
  beam_E : num;
  beam_A : num;
  beam_I : num
}.

(** [stiffness_matrix]: the 6x6 matrix, rows as the assignments
    [k[m, n] = ...] fill them; entries never assigned stay at the
    zero of [np.zeros((6, 6))]. *)
Definition stiffness_matrix (self : SimpleFEMBeam) : list (list num) :=
  let L := beam_L self in
  let E := beam_E self in
  let A := beam_A self in
  let I := beam_I self in
  let EI_L3 := of_Z 12 * E * I / (L ** 3) in
  let EI_L2 := of_Z 6 * E * I / (L ** 2) in
  let EI_L := of_Z 4 * E * I / L in
  let EI_L_2 := of_Z 2 * E * I / L in
  [ [ E * A / L; zero; zero; - E * A / L; zero; zero ];
    [ zero; EI_L3; EI_L2; zero; - EI_L3; EI_L2 ];
    [ zero; EI_L2; EI_L; zero; - EI_L2; EI_L_2 ];
    [ - E * A / L; zero; zero; E * A / L; zero; zero ];
    [ zero; - EI_L3; - EI_L2; zero; EI_L3; - EI_L2 ];
    [ zero; EI_L2; EI_L_2; zero; - EI_L2; EI_L ] ].

(** [equivalent_nodal_loads] *)
Definition equivalent_nodal_loads (self : SimpleFEMBeam) (q : num)
  : list num :=
  let L := beam_L self in
  [ zero;
    q * L / of_Z 2;
    q * L ** 2 / of_Z 12;
    zero;
    q * L / of_Z 2;
    - q * L ** 2 / of_Z 12 ].
End Beam.
Arguments SimpleFEMBeam num : clear implicits.

(** ** class ContinuousBridgeFEM *)

Section Bridge.
Context {num : Type} `{Scalar num} `{LinAlg num}.
Local Open Scope num_scope.

(** The dictionaries stored in [self.elements], [self.supports] and
    [self.loads].  Constraint flags are used for their truth value only
    and are kept as booleans. *)
Record Element : Type := {
  e_nodes : Z * Z;
  e_length : num;
  e_E : num;
  e_A : num;
  e_I : num
}.

Record Support : Type := {
  s_node : Z;
  s_constraints : list bool
}.

Inductive Load : Type :=
  | Distributed (element : Z) (value : num)
  | Point (node : Z) (value : num * num * num).

(** The object state.  [displacements] and [reactions] are attributes
    that [__init__] does not create: they are [None] until [solve]
    assigns them.  ([self.material] and [self.section] are never read
    nor written after [__init__] and are left out.) *)
Record ContinuousBridgeFEM : Type := {
  nodes : list (num * num);
  elements : list Element;
  supports : list Support;
  loads : list Load;
  displacements : option (list num);
  reactions : option (list num)
}.

Definition init : ContinuousBridgeFEM :=
  {| nodes := []; elements := []; supports := []; loads := [];
     displacements := None; reactions := None |}.

Definition add_node (self : ContinuousBridgeFEM) (x y : num)
  : ContinuousBridgeFEM * Z :=
  let self' :=
    {| nodes := nodes self ++ [(x, y)];
       elements := elements self;
       supports := supports self;
       loads := loads self;
       displacements := displacements self;
       reactions := reactions self |} in
  (self', Z.of_nat (length (nodes self')) - 1)%Z.

Definition add_element (self : ContinuousBridgeFEM) (node1 node2 : Z)
    (E A I : num) : Exc (ContinuousBridgeFEM * Z) :=
  do '(x1, y1) <- getitem (nodes self) node1;
  do '(x2, y2) <- getitem (nodes self) node2;
  let length_ := nsqrt ((x2 - x1) ** 2 + (y2 - y1) ** 2) in
  let element :=
    {| e_nodes := (node1, node2); e_length := length_;
       e_E := E; e_A := A; e_I := I |} in
  let self' :=
    {| nodes := nodes self;
       elements := elements self ++ [element];
       supports := supports self;
       loads := loads self;
       displacements := displacements self;
       reactions := reactions self |} in
  Ok (self', (Z.of_nat (length (elements self')) - 1)%Z).

Definition add_support (self : ContinuousBridgeFEM) (node_id : Z)
    (constraints : list bool) : ContinuousBridgeFEM :=
  {| nodes := nodes self;
     elements := elements self;
     supports := supports self ++
                 [{| s_node := node_id; s_constraints := constraints |}];
     loads := loads self;
     displacements := displacements self;
     reactions := reactions self |}.

Definition add_load (self : ContinuousBridgeFEM) (load : Load)
  : ContinuousBridgeFEM :=
  {| nodes := nodes self;
     elements := elements self;
     supports := supports self;
     loads := loads self ++ [load];
     displacements := displacements self;
     reactions := reactions self |}.

Definition add_distributed_load (self : ContinuousBridgeFEM)
    (element_id : Z) (q : num) : ContinuousBridgeFEM :=
  add_load self (Distributed element_id q).

Definition add_point_load (self : ContinuousBridgeFEM) (node_id : Z)
    (fx fy mz : num) : ContinuousBridgeFEM :=
  add_load self (Point node_id (fx, fy, mz)).

(** [dof_map], and the beam object of an element. *)
Definition dof_map (node1 node2 : Z) : list Z :=
  [ node1 * 3; node1 * 3 + 1; node1 * 3 + 2;
    node2 * 3; node2 * 3 + 1; node2 * 3 + 2 ]%Z.

Definition beam_of (element : Element) : SimpleFEMBeam num :=
  {| beam_L := e_length element; beam_E := e_E element;
     beam_A := e_A element; beam_I := e_I element |}.

(** Reads of the fixed-size local arrays [dof_map[m]], [f_equiv[m]] and
    [k_local[m, n]] for [m], [n] in [range(6)]. *)
Definition local_dof (dm : list Z) (m : nat) : Z := nth m dm 0%Z.
Definition local_vec (f : list num) (m : nat) : num := nth m f zero.
Definition local_mat (k : list (list num)) (m n : nat) : num :=
  nth n (nth m k []) zero.

(** The scatter-add of one element stiffness matrix. *)
Definition scatter_stiffness (dm : list Z) (k_local : list (list num))
    (K_global : list (list num)) : Exc (list (list num)) :=
  for_each (seq 0 6) (fun m K =>
    for_each (seq 0 6) (fun n K =>
      iadd_at2 K (local_dof dm m) (local_dof dm n) (local_mat k_local m n))
      K) K_global.

(** The body of the loop over [self.loads]. *)
Definition assemble_load (self : ContinuousBridgeFEM) (load : Load)
    (F_global : list num) : Exc (list num) :=
  match load with
  | Distributed element_id q =>
      do element <- getitem (elements self) element_id;
      let '(node1, node2) := e_nodes element in
      let f_equiv := equivalent_nodal_loads (beam_of element) q in
      let dm := dof_map node1 node2 in
      for_each (seq 0 6) (fun m F =>
        iadd_at F (local_dof dm m) (local_vec f_equiv m)) F_global
  | Point node_id (fx, fy, mz) =>
      do F <- iadd_at F_global (node_id * 3)%Z fx;
      do F <- iadd_at F (node_id * 3 + 1)%Z fy;
      iadd_at F (node_id * 3 + 2)%Z mz
  end.

Definition assemble_global_matrix (self : ContinuousBridgeFEM)
  : Exc (list (list num) * list num) :=
  let n_nodes := length (nodes self) in
  let n_dof := (n_nodes * 3)%nat in
  let K_global := zeros2 n_dof n_dof in
  let F_global := zeros n_dof in
  do K_global <- for_each (elements self) (fun element K =>
      let '(node1, node2) := e_nodes element in
      let k_local := stiffness_matrix (beam_of element) in
      scatter_stiffness (dof_map node1 node2) k_local K) K_global;
  do F_global <- for_each (loads self) (assemble_load self) F_global;
  Ok (K_global, F_global).

(** The removal of the constrained degrees of freedom of one support:
    the loop over [enumerate(constraints)]. *)
Definition remove_constrained (support : Support) (free_dof : list Z)
  : list Z :=
  fold_left (fun fd '(i, constrained) =>
    if (constrained : bool) then
      let dof := (s_node support * 3 + Z.of_nat i)%Z in
      if contains dof fd then list_remove_first dof fd else fd
    else fd) (enumerate (s_constraints support)) free_dof.

Definition free_dofs (self : ContinuousBridgeFEM) (n_dof : nat) : list Z :=
  fold_left (fun fd support => remove_constrained support fd)
    (supports self) (map Z.of_nat (seq 0 n_dof)).

Definition apply_boundary_conditions (self : ContinuousBridgeFEM)
    (K : list (list num)) (F : list num)
  : Exc (list (list num) * list num * list Z) :=
  let n_dof := length F in
  let free_dof := free_dofs self n_dof in
  do K_reduced <- ix_ K free_dof free_dof;
  do F_reduced <- take_indices F free_dof;
  Ok (K_reduced, F_reduced, free_dof).

(** The writes [U_global[dof] = U_reduced[i]]. *)
Definition scatter_solution (free_dof : list Z) (U_reduced : list num)
    (U_global : list num) : Exc (list num) :=
  for_each (enumerate free_dof) (fun '(i, dof) U =>
    do x <- getitem U_reduced (Z.of_nat i);
    setitem U dof x) U_global.

(** The computation of [solve] up to its two assignments to [self]. *)
Definition solve_values (self : ContinuousBridgeFEM)
  : Exc (list num * list num) :=
  do '(K_global, F_global) <- assemble_global_matrix self;
  do '(K_reduced, F_reduced, free_dof) <-
    apply_boundary_conditions self K_global F_global;
  do U_reduced <- linalg_solve K_reduced F_reduced;
  let n_dof := length F_global in
  let U_global := zeros n_dof in
  do U_global <- scatter_solution free_dof U_reduced U_global;
  let R_global := vsub (matvec K_global U_global) F_global in
  Ok (U_global, R_global).

(** [solve]: the result or the exception, and the object afterwards.
    The attributes are assigned after the last statement that can
    raise. *)
Definition solve (self : ContinuousBridgeFEM)
  : Exc (list num * list num) * ContinuousBridgeFEM :=
  match solve_values self with
  | Ok (U_global, R_global) =>
      (Ok (U_global, R_global),
       {| nodes := nodes self;
          elements := elements self;
          supports := supports self;
          loads := loads self;
          displacements := Some U_global;
          reactions := Some R_global |})
  | Raise e => (Raise e, self)
  end.

Record Reaction : Type := {
  r_node : Z;
  r_Rx : num;
  r_Ry : num;
  r_Mz : num
}.

(** [self.reactions]: the attribute lookup. *)
Definition get_reactions (self : ContinuousBridgeFEM) : Exc (list num) :=
  match reactions self with
  | Some R => Ok R
  | None => Raise AttributeError
  end.

Definition get_displacements (self : ContinuousBridgeFEM)
  : Exc (list num) :=
  match displacements self with
  | Some U => Ok U
  | None => Raise AttributeError
  end.

(** [self.reactions[idx] if constraints[k] else 0] *)
Definition masked_reaction (self : ContinuousBridgeFEM)
    (constraints : list bool) (k : Z) (idx : Z) : Exc num :=
  do c <- getitem constraints k;
  if (c : bool) then
    do R <- get_reactions self;
    getitem R idx
  else Ok zero.

Definition support_reaction (self : ContinuousBridgeFEM)
    (support : Support) : Exc Reaction :=
  let node_id := s_node support in
  let constraints := s_constraints support in
  do Rx <- masked_reaction self constraints 0 (node_id * 3)%Z;
  do Ry <- masked_reaction self constraints 1 (node_id * 3 + 1)%Z;
  do Mz <- masked_reaction self constraints 2 (node_id * 3 + 2)%Z;
  Ok {| r_node := node_id; r_Rx := Rx; r_Ry := Ry; r_Mz := Mz |}.

Definition get_support_reactions (self : ContinuousBridgeFEM)
  : Exc (list Reaction) :=
  map_exc (support_reaction self) (supports self).
End Bridge.
Arguments Element num : clear implicits.
Arguments Load num : clear implicits.
Arguments ContinuousBridgeFEM num : clear implicits.
Arguments Reaction num : clear implicits.

(** ** np.linalg.solve

    NumPy hands the system to LAPACK's [gesv]: LU factorisation with
    partial pivoting (the pivot of a column is its first entry of largest
    absolute value, brought up by a row interchange), followed by the
    triangular solves; a pivot that is exactly zero is reported as
    [LinAlgError] (singular matrix).  The model eliminates on the
    augmented rows of the system. *)

Section Gesv.
Context {num : Type} `{Scalar num}.
Local Open Scope num_scope.

(** An augmented row: the coefficients and the right-hand side. *)
Definition Row : Type := list num * num.

Definition lead (r : Row) : num := hd zero (fst r).

Fixpoint idamax_from (i best : nat) (bv : num) (xs : list num) : nat :=
  match xs with
  | [] => best
  | x :: xs' =>
      if nltb bv (nabs x) then idamax_from (S i) i (nabs x) xs'
      else idamax_from (S i) best bv xs'
  end.

(** Index of the first entry of largest absolute value. *)
Definition idamax (xs : list num) : nat :=
  match xs with
  | [] => 0
  | x :: xs' => idamax_from 1 0 (nabs x) xs'
  end.

(** Interchange of row [0] and row [p]. *)
Definition swap_rows (p : nat) (rows : list Row) : list Row :=
  match p, rows with
  | S p', r0 :: rest =>
      match rest !! p' with
      | Some rp => rp :: <[p' := r0]> rest
      | None => rows
      end
  | _, _ => rows
  end.

(** [a - l * b], entry by entry. *)
Fixpoint axpy (l : num) (a b : list num) : list num :=
  match a, b with
  | x :: a', y :: b' => (x - l * y) :: axpy l a' b'
  | _, _ => []
  end.

(** Elimination of the leading unknown of [r] with the pivot row. *)
Definition eliminate (piv r : Row) : Row :=
  let l := lead r / lead piv in
  (axpy l (tl (fst r)) (tl (fst piv)), snd r - l * snd piv).

Fixpoint gauss (n : nat) (rows : list Row) : Exc (list num) :=
  match n with
  | O => Ok []
  | S n' =>
      match swap_rows (idamax (map (fun r => lead r) rows)) rows with
      | [] => Raise LinAlgError
      | piv :: others =>
          if neqb (lead piv) zero then Raise LinAlgError
          else
            do xs <- gauss n' (map (eliminate piv) others);
            Ok ((snd piv - dot (tl (fst piv)) xs) / lead piv :: xs)
      end
  end.

(** A matrix that is not square raises [LinAlgError], a right-hand
    side of another length [ValueError]. *)
Definition gesv (a : list (list num)) (b : list num) : Exc (list num) :=
  let n := length a in
  if negb (forallb (fun row => Nat.eqb (length row) n) a) then
    Raise LinAlgError
  else if negb (Nat.eqb (length b) n) then Raise ValueError
  else gauss n (combine a b).
End Gesv.

(** ** Instances: exact real arithmetic, and the canonical rationals *)

Definition Rltb (x y : R) : bool := if Rlt_dec x y then true else false.
Definition Reqb (x y : R) : bool := if Req_dec_T x y then true else false.

#[export] Instance R_scalar : Scalar R := {|
  of_Z := IZR;
  nadd := Rplus;
  nsub := Rminus;
  nmul := Rmult;
  ndiv := Rdiv;
  nneg := Ropp;
  npow := Rpow_def.pow;
  nsqrt := R_sqrt.sqrt;
  nabs := Rabs;
  nltb := Rltb;
  neqb := Reqb
|}.

#[export] Instance R_linalg : LinAlg R := {| linalg_solve := gesv |}.

(** The square root of a rational is exact when numerator and
    denominator are perfect squares and is rounded otherwise. *)
Definition Qc_sqrt (q : Qc) : Qc :=
  Q2Qc (Qmake (Z.sqrt (Qnum q)) (Pos.sqrt (Qden q))).

Definition Qc_ltb (x y : Qc) : bool :=
  if Qclt_le_dec x y then true else false.

#[export] Instance Qc_scalar : Scalar Qc := {|
  of_Z := fun z => Q2Qc (inject_Z z);
  nadd := Qcplus;
  nsub := Qcminus;
  nmul := Qcmult;
  ndiv := Qcdiv;
  nneg := Qcopp;
  npow := Qcpower;
  nsqrt := Qc_sqrt;
  nabs := Qcabs;
  nltb := Qc_ltb;
  neqb := Qc_eq_bool
|}.

#[export] Instance Qc_linalg : LinAlg Qc := {| linalg_solve := gesv |}.


(** ** Notions used in the statements *)

(** [flagged s d]: support [s] marks the degree of freedom [d], that is
    [d = node * 3 + i] for a position [i] of its constraint list that
    holds a true flag. *)
Definition flagged (s : Support) (d : Z) : bool :=
  existsb (fun '(i, c) => (c : bool) && (s_node s * 3 + Z.of_nat i =? d)%Z)
    (enumerate (s_constraints s)).

(** [constrained sups d]: some support of the list marks [d]. *)
Definition constrained (sups : list Support) (d : Z) : bool :=
  existsb (fun s => flagged s d) sups.

(** The degrees of freedom [0 .. n-1] that no support marks. *)
Definition unmarked_dofs (sups : list Support) (n : nat) : list Z :=
  List.filter (fun d => negb (constrained sups d)) (map Z.of_nat (seq 0 n)).

(** [is_matrix r c K]: [K] has [r] rows of [c] entries. *)
Definition is_matrix {A : Type} (r c : nat) (K : list (list A)) : Prop :=
  length K = r /\ Forall (fun row => length row = c) K.

(** ** Example models *)

Section Examples.
Context {num : Type} `{Scalar num} `{LinAlg num}.

Definition pin : list bool := [true; true; false].
Definition roller : list bool := [false; true; false].

(** A single span of length [L] along the x axis: pin at node 0, roller
    at node 1, uniform load [q]; built with the calls of the class. *)
Definition single_span (L E A I q : num) : Exc (ContinuousBridgeFEM num) :=
  let bridge := init in
  let '(bridge, n0) := add_node bridge zero zero in
  let '(bridge, n1) := add_node bridge L zero in
  do '(bridge, e0) <- add_element bridge n0 n1 E A I;
  let bridge := add_support bridge n0 pin in
  let bridge := add_support bridge n1 roller in
  let bridge := add_distributed_load bridge e0 q in
  Ok bridge.

(** The model of [analyze_continuous_bridge_demo]: spans [spans], a pin
    support at every node, the distributed load on every element and
    the two vehicle loads at nodes 1 and 2. *)
Definition continuous_bridge (s1 s2 s3 E A I q P : num)
  : Exc (ContinuousBridgeFEM num) :=
  let bridge := init in
  let x1 := (zero + s1)%num in
  let x2 := (x1 + s2)%num in
  let x3 := (x2 + s3)%num in
  let '(bridge, n0) := add_node bridge zero zero in
  let '(bridge, n1) := add_node bridge x1 zero in
  let '(bridge, n2) := add_node bridge x2 zero in
  let '(bridge, n3) := add_node bridge x3 zero in
  do '(bridge, e0) <- add_element bridge n0 n1 E A I;
  do '(bridge, e1) <- add_element bridge n1 n2 E A I;
  do '(bridge, e2) <- add_element bridge n2 n3 E A I;
  let bridge := add_support bridge n0 pin in
  let bridge := add_support bridge n1 pin in
  let bridge := add_support bridge n2 pin in
  let bridge := add_support bridge n3 pin in
  let bridge := add_distributed_load bridge e0 (- q)%num in
  let bridge := add_distributed_load bridge e1 (- q)%num in
  let bridge := add_distributed_load bridge e2 (- q)%num in
  let bridge := add_point_load bridge 1 zero (- P / of_Z 2)%num zero in
  let bridge := add_point_load bridge 2 zero (- P / of_Z 2)%num zero in
  Ok bridge.

Definition or_init (m : Exc (ContinuousBridgeFEM num))
  : ContinuousBridgeFEM num :=
  match m with Ok bridge => bridge | Raise _ => init end.
End Examples.

(** Rational literals. *)
Definition qc (a : Z) (b : positive) : Qc := Q2Qc (Qmake a b).

(** A span of 2 with [E = A = I = 1] under the load [q = -3]. *)
Definition span_Qc : ContinuousBridgeFEM Qc :=
  or_init (single_span (qc 2 1) (qc 1 1) (qc 1 1) (qc 1 1) (qc (-3) 1)).

(** The three-span bridge of the demonstration: 20 m + 25 m + 20 m,
    E = 34.5 GPa, A = 0.45 m2, I = 0.082 m4, 26.25 kN/m, vehicle 250 kN. *)
Definition bridge_Qc : ContinuousBridgeFEM Qc :=
  or_init (continuous_bridge (qc 20 1) (qc 25 1) (qc 20 1)
    (qc 34500000000 1) (qc 45 100) (qc 82 1000) (qc 26250 1) (qc 250000 1)).

(** [masked_component c k R idx x]: [x] is the component that
    [get_support_reactions] reports for flag number [k] of the constraint
    list [c]: the entry [R[idx]] when the flag is set, zero when it is
    not. *)
Definition masked_component {num : Type} `{Scalar num} (c : list bool)
    (k : nat) (R : list num) (idx : Z) (x : num) : Prop :=
  match c !! k with
  | Some true => getitem R idx = Ok x
  | Some false => x = zero
  | None => False
  end.

(** A support with a set flag among its first three. *)
Definition constrains_some (s : Support) : bool :=
  existsb (fun c : bool => c) (firstn 3 (s_constraints s)).

(** The entry reported for a support none of whose flags is set. *)
Definition zero_reaction {num : Type} `{Scalar num} (s : Support)
  : Reaction num :=
  {| r_node := s_node s; r_Rx := zero; r_Ry := zero; r_Mz := zero |}.




(** ** Entries and sums over the reals *)

(** [K[i][j]] and [F[i]] for indices in range. *)
Definition entry {num : Type} `{Scalar num} (K : list (list num))
    (i j : nat) : num :=
  nth j (nth i K []) zero.

Definition component {num : Type} `{Scalar num} (F : list num) (i : nat)
  : num :=
  nth i F zero.

Fixpoint sum_over {A : Type} (l : list A) (f : A -> R) : R :=
  match l with
  | [] => 0%R
  | x :: l' => (f x + sum_over l' f)%R
  end.

(** [hit n a b p q]: the indices [a], [b] of an [n] by [n] array
    address the entry [(p, q)]. *)
Definition hit (n : nat) (a b : Z) (p q : nat) : bool :=
  match py_index n a, py_index n b with
  | Some r, Some c => Nat.eqb r p && Nat.eqb c q
  | _, _ => false
  end.

(** What the scatter-add of one element matrix adds to the entry
    [(p, q)] of the global matrix. *)
Definition scattered (n : nat) (dm : list Z) (k : list (list R))
    (p q : nat) : R :=
  sum_over (seq 0 6) (fun m =>
    sum_over (seq 0 6) (fun j =>
      if hit n (local_dof dm m) (local_dof dm j) p q
      then local_mat k m j else 0%R)).

(** The entries of [F] and of [K] at lists of indices in range: what
    [F[idx]] and [K[np.ix_(rows, cols)]] hold when they return. *)
Definition subvector {num : Type} `{Scalar num} (F : list num)
    (idx : list Z) : list num :=
  map (fun d => component F (Z.to_nat d)) idx.

Definition submatrix {num : Type} `{Scalar num} (K : list (list num))
    (rows cols : list Z) : list (list num) :=
  map (fun r => subvector (nth (Z.to_nat r) K []) cols) rows.

(** ** Index ranges *)

(** [in_index_range n i]: [i] is an index of a sequence of length [n],
    negative indices counting from the end. *)
Definition in_index_range (n : nat) (i : Z) : bool :=
  ((- Z.of_nat n <=? i) && (i <? Z.of_nat n))%Z.

(** A support that [get_support_reactions] can report from a reaction
    vector of length [n]: it has its three flags, and the degrees of
    freedom of its set flags are indices of the vector. *)
Definition reportable (n : nat) (s : Support) : bool :=
  match s_constraints s with
  | c0 :: c1 :: c2 :: _ =>
      (negb c0 || in_index_range n (s_node s * 3)) &&
      (negb c1 || in_index_range n (s_node s * 3 + 1)) &&
      (negb c2 || in_index_range n (s_node s * 3 + 2))
  | _ => false
  end.

(** ** References that assembly can follow *)

Section References.
Context {num : Type} `{Scalar num}.

(** Both node ids of the element are indices of a list of [N] nodes. *)
Definition valid_element (N : nat) (element : Element num) : bool :=
  in_index_range N (fst (e_nodes element)) &&
  in_index_range N (snd (e_nodes element)).

(** The element id of a distributed load is an index of the element list
    and leads to an element with valid nodes; the node id of a point
    load is an index of the node list. *)
Definition valid_load (self : ContinuousBridgeFEM num) (load : Load num)
  : bool :=
  match load with
  | Distributed element_id _ =>
      match getitem (elements self) element_id with
      | Ok element => valid_element (length (nodes self)) element
      | Raise _ => false
      end
  | Point node_id _ => in_index_range (length (nodes self)) node_id
  end.

Definition valid_references (self : ContinuousBridgeFEM num) : bool :=
  forallb (valid_element (length (nodes self))) (elements self) &&
  forallb (valid_load self) (loads self).
End References.

(** ** Resultants *)






(** * Properties *)

(** ** Indexing *)

Lemma py_index_lt (n : nat) (i : Z) (k : nat) :
  py_index n i = Some k -> k < n.
Proof.
  unfold py_index. intros Hk.
  destruct ((0 <=? i) && (i <? Z.of_nat n))%Z eqn:E1.
  - injection Hk as <-. lia.
  - destruct ((- Z.of_nat n <=? i) && (i <? 0))%Z eqn:E2; [|discriminate].
    injection Hk as <-. lia.
Qed.

Lemma py_index_nonneg (n : nat) (i : Z) :
  (0 <= i < Z.of_nat n)%Z -> py_index n i = Some (Z.to_nat i).
Proof.
  intros Hi. unfold py_index.
  replace ((0 <=? i) && (i <? Z.of_nat n))%Z with true; [done|].
  symmetry. apply andb_true_iff. lia.
Qed.

Lemma py_index_neg (n : nat) (i : Z) :
  (- Z.of_nat n <= i < 0)%Z ->
  py_index n i = Some (Z.to_nat (Z.of_nat n + i)).
Proof.
  intros Hi. unfold py_index.
  replace ((0 <=? i) && (i <? Z.of_nat n))%Z with false.
  - replace ((- Z.of_nat n <=? i) && (i <? 0))%Z with true; [done|].
    symmetry. apply andb_true_iff. lia.
  - symmetry. apply andb_false_iff. lia.
Qed.

Lemma py_index_none (n : nat) (i : Z) :
  py_index n i = None <-> (i < - Z.of_nat n \/ Z.of_nat n <= i)%Z.
Proof.
  unfold py_index.
  destruct ((0 <=? i) && (i <? Z.of_nat n))%Z eqn:E1.
  - apply andb_true_iff in E1. split; [discriminate | lia].
  - destruct ((- Z.of_nat n <=? i) && (i <? 0))%Z eqn:E2.
    + apply andb_true_iff in E2. split; [discriminate | lia].
    + apply andb_false_iff in E1. apply andb_false_iff in E2.
      split; [lia | done].
Qed.

Lemma py_index_some (n : nat) (i : Z) (k : nat) :
  py_index n i = Some k <->
  (0 <= i < Z.of_nat n /\ k = Z.to_nat i)%Z \/
  (- Z.of_nat n <= i < 0 /\ k = Z.to_nat (Z.of_nat n + i))%Z.
Proof.
  split.
  - intros Hk. destruct (Z_lt_le_dec i 0) as [Hneg|Hpos].
    + destruct (Z_lt_le_dec i (- Z.of_nat n)) as [Hlow|Hlow].
      * assert (py_index n i = None) as Hn by (apply py_index_none; lia).
        congruence.
      * rewrite py_index_neg in Hk by lia. injection Hk as <-. right. lia.
    + destruct (Z_lt_le_dec i (Z.of_nat n)) as [Hup|Hup].
      * rewrite py_index_nonneg in Hk by lia. injection Hk as <-. left. lia.
      * assert (py_index n i = None) as Hn by (apply py_index_none; lia).
        congruence.
  - intros [[Hi ->]|[Hi ->]].
    + by apply py_index_nonneg.
    + by apply py_index_neg.
Qed.

Lemma getitem_ok {A : Type} (l : list A) (i : Z) (x : A) :
  getitem l i = Ok x <->
  exists k, py_index (length l) i = Some k /\ l !! k = Some x.
Proof.
  unfold getitem. split.
  - destruct (py_index (length l) i) as [k|]; [|discriminate].
    destruct (l !! k) as [y|] eqn:Hy; [|discriminate].
    intros [= <-]. eauto.
  - intros (k & -> & ->). done.
Qed.

Lemma getitem_raise {A : Type} (l : list A) (i : Z) (e : PyError) :
  getitem l i = Raise e <-> e = IndexError /\ py_index (length l) i = None.
Proof.
  unfold getitem. split.
  - destruct (py_index (length l) i) as [k|] eqn:Hk.
    + apply py_index_lt in Hk. apply lookup_lt_is_Some_2 in Hk as [x ->].
      discriminate.
    + intros [= <-]. done.
  - intros [-> ->]. done.
Qed.

Lemma getitem_nat {A : Type} (l : list A) (k : nat) (x : A) :
  l !! k = Some x -> getitem l (Z.of_nat k) = Ok x.
Proof.
  intros Hx. apply getitem_ok. exists k. split; [|done].
  rewrite py_index_nonneg.
  - by rewrite Nat2Z.id.
  - apply lookup_lt_Some in Hx. lia.
Qed.

(** ** Loops *)

Lemma for_each_app {A S : Type} (l1 l2 : list A) (body : A -> S -> Exc S)
    (s : S) :
  for_each (l1 ++ l2) body s =
  (do s' <- for_each l1 body s; for_each l2 body s').
Proof.
  revert s. induction l1 as [|x l1 IH]; intros s; simpl; [done|].
  destruct (body x s) as [s'|e]; simpl; [apply IH | done].
Qed.

(** A loop invariant that every iteration preserves holds at the end. *)
Lemma for_each_invariant {A S : Type} (P : S -> Prop) (l : list A)
    (body : A -> S -> Exc S) (s s' : S) :
  (forall x t t', In x l -> P t -> body x t = Ok t' -> P t') ->
  P s -> for_each l body s = Ok s' -> P s'.
Proof.
  revert s. induction l as [|x l IH]; intros s Hbody Hs; simpl.
  - intros [= <-]. done.
  - destruct (body x s) as [t|e] eqn:Hx; simpl; [|discriminate].
    apply IH.
    + intros y u u' Hy. apply Hbody. by right.
    + eapply Hbody; [by left | exact Hs | exact Hx].
Qed.

(** A loop whose body raises nothing but [e] raises nothing but [e]. *)
Lemma for_each_raise {A S : Type} (e0 : PyError) (l : list A)
    (body : A -> S -> Exc S) (s : S) (e : PyError) :
  (forall x t e', body x t = Raise e' -> e' = e0) ->
  for_each l body s = Raise e -> e = e0.
Proof.
  intros Hbody. revert s. induction l as [|x l IH]; intros s; simpl.
  - discriminate.
  - destruct (body x s) as [t|e'] eqn:Hx; simpl.
    + apply IH.
    + intros [= <-]. by eapply Hbody.
Qed.

Lemma map_exc_length {A B : Type} (f : A -> Exc B) (l : list A)
    (r : list B) :
  map_exc f l = Ok r -> length r = length l.
Proof.
  revert r. induction l as [|x l IH]; intros r; simpl.
  - intros [= <-]. done.
  - destruct (f x) as [y|e]; simpl; [|discriminate].
    destruct (map_exc f l) as [ys|e]; simpl; [|discriminate].
    intros [= <-]. simpl. f_equal. by apply IH.
Qed.

Lemma map_exc_lookup {A B : Type} (f : A -> Exc B) (l : list A)
    (r : list B) (k : nat) (x : A) :
  map_exc f l = Ok r -> l !! k = Some x ->
  exists y, r !! k = Some y /\ f x = Ok y.
Proof.
  revert r k. induction l as [|x0 l IH]; intros r k; simpl.
  - intros _. rewrite lookup_nil. discriminate.
  - destruct (f x0) as [y0|e] eqn:Hy0; simpl; [|discriminate].
    destruct (map_exc f l) as [ys|e]; simpl; [|discriminate].
    intros [= <-]. destruct k as [|k]; simpl.
    + intros [= <-]. eauto.
    + by apply IH.
Qed.

Lemma map_exc_all_ok {A B : Type} (f : A -> Exc B) (l : list A) :
  (forall x, In x l -> exists y, f x = Ok y) ->
  exists r, map_exc f l = Ok r.
Proof.
  induction l as [|x l IH]; intros Hall; simpl.
  - eauto.
  - destruct (Hall x) as [y ->]; [by left|]. simpl.
    destruct IH as [r ->]; [intros z Hz; apply Hall; by right|].
    simpl. eauto.
Qed.

(** ** The free degrees of freedom *)

Lemma filter_all_true {A : Type} (p : A -> bool) (l : list A) :
  (forall x, In x l -> p x = true) -> List.filter p l = l.
Proof.
  induction l as [|x l IH]; intros Hall; simpl; [done|].
  rewrite (Hall x) by (by left). f_equal. apply IH.
  intros y Hy. apply Hall. by right.
Qed.

Lemma filter_twice {A : Type} (p q : A -> bool) (l : list A) :
  List.filter p (List.filter q l) = List.filter (fun x => q x && p x) l.
Proof.
  induction l as [|x l IH]; simpl; [done|].
  destruct (q x); simpl; [|exact IH].
  destruct (p x); [f_equal|]; exact IH.
Qed.

Lemma filter_pointwise {A : Type} (p q : A -> bool) (l : list A) :
  (forall x, In x l -> p x = q x) -> List.filter p l = List.filter q l.
Proof.
  induction l as [|x l IH]; intros Hpq; simpl; [done|].
  rewrite (Hpq x) by (by left).
  rewrite IH; [done|]. intros y Hy. apply Hpq. by right.
Qed.

Lemma contains_In (x : Z) (l : list Z) : contains x l = true <-> In x l.
Proof.
  unfold contains. rewrite existsb_exists. split.
  - intros (y & Hy & Heq). apply Z.eqb_eq in Heq. by subst.
  - intros Hx. exists x. split; [done | apply Z.eqb_refl].
Qed.

Lemma contains_false (x : Z) (l : list Z) :
  contains x l = false <-> ~ In x l.
Proof.
  rewrite <- contains_In. destruct (contains x l); split; congruence.
Qed.

(** On a duplicate-free list, [remove] is a filter. *)
Lemma list_remove_first_filter (x : Z) (l : list Z) :
  List.NoDup l ->
  list_remove_first x l = List.filter (fun y => negb (x =? y)%Z) l.
Proof.
  induction 1 as [|y l Hy Hnd IH]; simpl; [done|].
  destruct (x =? y)%Z eqn:Hxy; simpl.
  - apply Z.eqb_eq in Hxy. subst y. symmetry. apply filter_all_true.
    intros z Hz. apply negb_true_iff, Z.eqb_neq. intros ->. by apply Hy.
  - f_equal. exact IH.
Qed.

Lemma remove_if_present_filter (x : Z) (l : list Z) :
  List.NoDup l ->
  (if contains x l then list_remove_first x l else l) =
  List.filter (fun y => negb (x =? y)%Z) l.
Proof.
  intros Hnd. destruct (contains x l) eqn:Hc.
  - by apply list_remove_first_filter.
  - symmetry. apply filter_all_true. intros z Hz.
    apply negb_true_iff, Z.eqb_neq. intros ->.
    apply contains_false in Hc. by apply Hc.
Qed.

Lemma NoDup_List_filter {A : Type} (p : A -> bool) (l : list A) :
  List.NoDup l -> List.NoDup (List.filter p l).
Proof.
  induction 1 as [|x l Hx Hnd IH]; simpl; [constructor|].
  destruct (p x); [|exact IH].
  constructor; [|exact IH]. intros Hin. apply filter_In in Hin. tauto.
Qed.

(** The loop over [enumerate(constraints)], for any list of numbered
    flags. *)
Lemma remove_flags_filter (node : Z) (flags : list (nat * bool))
    (fd : list Z) :
  List.NoDup fd ->
  fold_left (fun fd '(i, constrained) =>
      if (constrained : bool) then
        let dof := (node * 3 + Z.of_nat i)%Z in
        if contains dof fd then list_remove_first dof fd else fd
      else fd) flags fd =
  List.filter (fun d => negb (existsb (fun '(i, c) =>
      (c : bool) && (node * 3 + Z.of_nat i =? d)%Z) flags)) fd.
Proof.
  revert fd. induction flags as [|[i c] flags IH]; intros fd Hnd; simpl.
  - symmetry. by apply filter_all_true.
  - destruct c; simpl.
    + rewrite remove_if_present_filter by done.
      rewrite IH by (by apply NoDup_List_filter).
      rewrite filter_twice. apply filter_pointwise. intros d _.
      by rewrite negb_orb.
    + by apply IH.
Qed.

Lemma remove_constrained_filter (s : Support) (fd : list Z) :
  List.NoDup fd ->
  remove_constrained s fd = List.filter (fun d => negb (flagged s d)) fd.
Proof. apply remove_flags_filter. Qed.

Lemma remove_supports_filter (sups : list Support) (fd : list Z) :
  List.NoDup fd ->
  fold_left (fun fd support => remove_constrained support fd) sups fd =
  List.filter (fun d => negb (constrained sups d)) fd.
Proof.
  revert fd. induction sups as [|s sups IH]; intros fd Hnd; simpl.
  - symmetry. by apply filter_all_true.
  - rewrite remove_constrained_filter by done.
    rewrite IH by (by apply NoDup_List_filter).
    rewrite filter_twice. apply filter_pointwise. intros d _.
    by rewrite negb_orb.
Qed.

Lemma NoDup_range (n : nat) : List.NoDup (map Z.of_nat (seq 0 n)).
Proof.
  generalize 0%nat. induction n as [|n IH]; intros a; simpl; constructor.
  - rewrite in_map_iff. intros (k & Hk & Hin).
    apply Nat2Z.inj in Hk. subst k. apply in_seq in Hin. lia.
  - apply IH.
Qed.

Section FreeDofs.
Context {num : Type} `{Scalar num} `{LinAlg num}.

(** The free list computed by [apply_boundary_conditions] is the range
    of degrees of freedom without those that a support marks, in
    increasing order. *)
Lemma free_dofs_unmarked (self : ContinuousBridgeFEM num) (n : nat) :
  free_dofs self n = unmarked_dofs (supports self) n.
Proof. apply remove_supports_filter, NoDup_range. Qed.

Lemma free_dofs_NoDup (self : ContinuousBridgeFEM num) (n : nat) :
  List.NoDup (free_dofs self n).
Proof.
  rewrite free_dofs_unmarked. apply NoDup_List_filter, NoDup_range.
Qed.

Lemma free_dofs_In (self : ContinuousBridgeFEM num) (n : nat) (d : Z) :
  In d (free_dofs self n) <->
  (0 <= d < Z.of_nat n)%Z /\ constrained (supports self) d = false.
Proof.
  rewrite free_dofs_unmarked. unfold unmarked_dofs.
  rewrite filter_In, in_map_iff, negb_true_iff. split.
  - intros [(k & <- & Hk) Hc]. apply in_seq in Hk. split; [lia | done].
  - intros [Hd Hc]. split; [|done]. exists (Z.to_nat d).
    split; [lia|]. apply in_seq. lia.
Qed.
End FreeDofs.

(** ** Shapes of the assembled arrays *)

Section Shapes.
Context {num : Type} `{Scalar num} `{LinAlg num}.

Lemma length_zeros (n : nat) : length (zeros n) = n.
Proof. apply repeat_length. Qed.

Lemma lookup_zeros (n k : nat) : k < n -> zeros n !! k = Some zero.
Proof.
  intros Hk. unfold zeros. revert k Hk.
  induction n as [|n IH]; intros k Hk; [lia|].
  destruct k as [|k]; simpl; [done|]. apply IH. lia.
Qed.

Lemma zeros2_matrix (r c : nat) : is_matrix r c (zeros2 r c).
Proof.
  split; [apply repeat_length|].
  apply List.Forall_forall. intros row Hrow.
  apply repeat_spec in Hrow. subst row. apply length_zeros.
Qed.

Lemma iadd_at_length (v v' : list num) (i : Z) (x : num) :
  iadd_at v i x = Ok v' -> length v' = length v.
Proof.
  unfold iadd_at. destruct (py_index (length v) i); [|discriminate].
  intros [= <-]. apply length_alter.
Qed.

Lemma iadd_at_raise (v : list num) (i : Z) (x : num) (e : PyError) :
  iadd_at v i x = Raise e -> e = IndexError.
Proof.
  unfold iadd_at. destruct (py_index (length v) i); congruence.
Qed.

Lemma iadd_at2_matrix (r c : nat) (K K' : list (list num)) (i j : Z)
    (x : num) :
  is_matrix r c K -> iadd_at2 K i j x = Ok K' -> is_matrix r c K'.
Proof.
  intros [Hr Hc]. unfold iadd_at2.
  destruct (py_index (length K) i) as [a|]; [|discriminate].
  destruct (K !! a) as [row|] eqn:Hrow; [|discriminate].
  destruct (py_index (length row) j) as [b|]; [|discriminate].
  intros [= <-]. split.
  - by rewrite length_insert.
  - apply Forall_insert; [done|]. rewrite length_alter.
    exact (Forall_lookup_1 _ K a row Hc Hrow).
Qed.

Lemma iadd_at2_raise (K : list (list num)) (i j : Z) (x : num)
    (e : PyError) :
  iadd_at2 K i j x = Raise e -> e = IndexError.
Proof.
  unfold iadd_at2.
  destruct (py_index (length K) i) as [a|]; [|congruence].
  destruct (K !! a) as [row|]; [|congruence].
  destruct (py_index (length row) j); congruence.
Qed.

Lemma scatter_stiffness_matrix (r c : nat) (dm : list Z)
    (k_local K K' : list (list num)) :
  is_matrix r c K -> scatter_stiffness dm k_local K = Ok K' ->
  is_matrix r c K'.
Proof.
  intros HK. unfold scatter_stiffness.
  apply for_each_invariant; [|done]. intros m K1 K2 _ HK1.
  apply for_each_invariant; [|done]. intros n K3 K4 _ HK3.
  by apply iadd_at2_matrix.
Qed.

Lemma scatter_stiffness_raise (dm : list Z) (k_local K : list (list num))
    (e : PyError) :
  scatter_stiffness dm k_local K = Raise e -> e = IndexError.
Proof.
  unfold scatter_stiffness. apply for_each_raise. intros m K1 e1.
  apply for_each_raise. intros n K2 e2. apply iadd_at2_raise.
Qed.

Lemma assemble_load_length (self : ContinuousBridgeFEM num)
    (load : Load num) (F F' : list num) :
  assemble_load self load F = Ok F' -> length F' = length F.
Proof.
  destruct load as [element_id q | node_id [[fx fy] mz]];
    unfold assemble_load.
  - destruct (getitem (elements self) element_id) as [el|];
      cbn [exc_bind]; [|discriminate].
    destruct (e_nodes el) as [node1 node2].
    apply (for_each_invariant (fun F1 => length F1 = length F)); [|done].
    intros m F1 F2 _ HF1 Hadd. apply iadd_at_length in Hadd. congruence.
  - destruct (iadd_at F (node_id * 3) fx) as [F1|] eqn:H1;
      cbn [exc_bind]; [|discriminate].
    destruct (iadd_at F1 (node_id * 3 + 1) fy) as [F2|] eqn:H2;
      cbn [exc_bind]; [|discriminate].
    intros H3. apply iadd_at_length in H1, H2, H3. congruence.
Qed.

Lemma assemble_load_raise (self : ContinuousBridgeFEM num)
    (load : Load num) (F : list num) (e : PyError) :
  assemble_load self load F = Raise e -> e = IndexError.
Proof.
  destruct load as [element_id q | node_id [[fx fy] mz]];
    unfold assemble_load.
  - destruct (getitem (elements self) element_id) as [el|e'] eqn:Hel;
      cbn [exc_bind].
    + destruct (e_nodes el) as [node1 node2].
      apply for_each_raise. intros m F1 e1. apply iadd_at_raise.
    + intros [= <-]. by apply getitem_raise in Hel as [-> _].
  - destruct (iadd_at F (node_id * 3) fx) as [F1|] eqn:H1;
      cbn [exc_bind].
    + destruct (iadd_at F1 (node_id * 3 + 1) fy) as [F2|] eqn:H2;
        cbn [exc_bind].
      * apply iadd_at_raise.
      * intros [= <-]. by apply iadd_at_raise in H2.
    + intros [= <-]. by apply iadd_at_raise in H1.
Qed.

(** The assembled system of a model with [N] nodes is [3N] by [3N]. *)
Lemma assemble_global_matrix_shape (self : ContinuousBridgeFEM num)
    (K : list (list num)) (F : list num) :
  assemble_global_matrix self = Ok (K, F) ->
  is_matrix (length (nodes self) * 3) (length (nodes self) * 3) K /\
  length F = length (nodes self) * 3.
Proof.
  intros Hasm. unfold assemble_global_matrix in Hasm. cbv zeta in Hasm.
  set (n_dof := length (nodes self) * 3) in *.
  destruct (for_each (elements self) _ (zeros2 n_dof n_dof))
    as [K1|] eqn:HK; cbn [exc_bind] in Hasm; [|discriminate].
  destruct (for_each (loads self) _ (zeros n_dof))
    as [F1|] eqn:HF; cbn [exc_bind] in Hasm; [|discriminate].
  injection Hasm as <- <-. split.
  - revert HK. apply for_each_invariant; [|apply zeros2_matrix].
    intros el K2 K3 _ HK2. destruct (e_nodes el) as [node1 node2].
    by apply scatter_stiffness_matrix.
  - revert HF.
    apply (for_each_invariant (fun F2 => length F2 = n_dof));
      [|apply length_zeros].
    intros load F2 F3 _ HF2 Hload.
    apply assemble_load_length in Hload. congruence.
Qed.

(** Assembly raises nothing but [IndexError]. *)
Lemma assemble_global_matrix_raise (self : ContinuousBridgeFEM num)
    (e : PyError) :
  assemble_global_matrix self = Raise e -> e = IndexError.
Proof.
  unfold assemble_global_matrix. cbv zeta.
  destruct (for_each (elements self) _ _) as [K1|e1] eqn:HK;
    cbn [exc_bind].
  - destruct (for_each (loads self) _ _) as [F1|e2] eqn:HF;
      cbn [exc_bind]; [discriminate|].
    intros [= <-]. revert HF. apply for_each_raise.
    intros load F2 e3. apply assemble_load_raise.
  - intros [= <-]. revert HK. apply for_each_raise.
    intros el K2 e3. destruct (e_nodes el) as [node1 node2].
    apply scatter_stiffness_raise.
Qed.
End Shapes.

(** ** The steps of [solve] *)

Section SolveSteps.
Context {num : Type} `{Scalar num} `{LinAlg num}.

(** A successful [solve] went through every step. *)
Lemma solve_values_ok (self : ContinuousBridgeFEM num) (U R : list num) :
  solve_values self = Ok (U, R) <->
  exists K F K_reduced F_reduced U_reduced,
    assemble_global_matrix self = Ok (K, F) /\
    ix_ K (free_dofs self (length F)) (free_dofs self (length F))
      = Ok K_reduced /\
    take_indices F (free_dofs self (length F)) = Ok F_reduced /\
    linalg_solve K_reduced F_reduced = Ok U_reduced /\
    scatter_solution (free_dofs self (length F)) U_reduced
      (zeros (length F)) = Ok U /\
    R = vsub (matvec K U) F.
Proof.
  unfold solve_values, apply_boundary_conditions. cbv zeta. split.
  - destruct (assemble_global_matrix self) as [[K F]|];
      cbn [exc_bind]; [|discriminate].
    destruct (ix_ K _ _) as [Kr|] eqn:HK; cbn [exc_bind]; [|discriminate].
    destruct (take_indices F _) as [Fr|] eqn:HF; cbn [exc_bind];
      [|discriminate].
    destruct (linalg_solve Kr Fr) as [Ur|] eqn:Hs; cbn [exc_bind];
      [|discriminate].
    destruct (scatter_solution _ Ur _) as [U1|] eqn:Hsc; cbn [exc_bind];
      [|discriminate].
    intros [= <- <-]. exists K, F, Kr, Fr, Ur. repeat split; assumption.
  - intros (K & F & Kr & Fr & Ur & -> & HK & HF & Hs & Hsc & ->).
    cbn [exc_bind]. rewrite HK. cbn [exc_bind]. rewrite HF.
    cbn [exc_bind]. rewrite Hs. cbn [exc_bind]. rewrite Hsc. done.
Qed.

Lemma solve_ok (self self' : ContinuousBridgeFEM num) (U R : list num) :
  solve self = (Ok (U, R), self') <->
  solve_values self = Ok (U, R) /\
  self' = {| nodes := nodes self; elements := elements self;
             supports := supports self; loads := loads self;
             displacements := Some U; reactions := Some R |}.
Proof.
  unfold solve. destruct (solve_values self) as [[U1 R1]|e]; split.
  - intros [= <- <- <-]. done.
  - intros [[= <- <-] ->]. done.
  - discriminate.
  - intros [? _]. discriminate.
Qed.


(** The writes [U_global[dof] = U_reduced[i]], for the numbered list of
    free degrees of freedom starting at number [a]. *)
Lemma scatter_from (a : nat) (fd : list Z) (Ur U0 U : list num) :
  for_each (combine (seq a (length fd)) fd) (fun '(i, dof) U =>
    do x <- getitem Ur (Z.of_nat i); setitem U dof x) U0 = Ok U ->
  List.NoDup fd -> (forall d, In d fd -> (0 <= d)%Z) ->
  length U = length U0 /\
  (forall k d, fd !! k = Some d ->
     exists x, Ur !! (a + k) = Some x /\ U !! Z.to_nat d = Some x) /\
  (forall j, ~ In (Z.of_nat j) fd -> U !! j = U0 !! j).
Proof.
  revert a U0. induction fd as [|d fd IH]; intros a U0; simpl.
  - intros [= <-] _ _. split; [done|]. split; [|done].
    intros k d. rewrite lookup_nil. discriminate.
  - destruct (getitem Ur (Z.of_nat a)) as [x|] eqn:Hx; cbn [exc_bind];
      [|discriminate].
    unfold setitem at 1.
    destruct (py_index (length U0) d) as [j|] eqn:Hj; cbn [exc_bind];
      [|discriminate].
    intros Hrest Hnd Hpos. apply List.NoDup_cons_iff in Hnd as [Hd Hnd].
    assert (0 <= d)%Z as Hd0 by (apply Hpos; by left).
    apply py_index_some in Hj as [[Hj ->]|[Hj _]]; [|lia].
    apply IH in Hrest as (Hlen & Hfree & Hother); [|done|];
      [|intros d' Hd'; apply Hpos; by right].
    rewrite length_insert in Hlen. split; [done|]. split.
    + intros [|k] d'; simpl.
      * intros [= <-]. exists x. split.
        -- apply getitem_ok in Hx as (k & Hk & Hx).
           apply py_index_some in Hk as [[_ ->]|[Hk _]]; [|lia].
           by rewrite Nat.add_0_r, <- Hx, Nat2Z.id.
        -- rewrite Hother.
           ++ apply list_lookup_insert_eq. lia.
           ++ rewrite Z2Nat.id by lia. intros Hin. by apply Hd.
      * intros Hk. destruct (Hfree k d' Hk) as (y & Hy & HU).
        exists y. split; [|done]. by rewrite <- Nat.add_succ_comm.
    + intros j Hj'. rewrite Hother by tauto.
      apply list_lookup_insert_ne. intros <-. apply Hj'. left. lia.
Qed.

Lemma scatter_solution_spec (fd : list Z) (Ur U0 U : list num) :
  scatter_solution fd Ur U0 = Ok U ->
  List.NoDup fd -> (forall d, In d fd -> (0 <= d)%Z) ->
  length U = length U0 /\
  (forall k d, fd !! k = Some d ->
     exists x, Ur !! k = Some x /\ U !! Z.to_nat d = Some x) /\
  (forall j, ~ In (Z.of_nat j) fd -> U !! j = U0 !! j).
Proof. apply scatter_from. Qed.
End SolveSteps.

(** ** Marked degrees of freedom *)

Lemma In_numbered {A : Type} (a i : nat) (c : A) (l : list A) :
  In (i, c) (combine (seq a (length l)) l) <->
  a <= i /\ l !! (i - a) = Some c.
Proof.
  revert a. induction l as [|x l IH]; intros a; simpl.
  - split; [done|]. intros [_ Hl]. by rewrite lookup_nil in Hl.
  - rewrite IH. split.
    + intros [[= <- <-]|[Ha Hl]].
      * split; [lia|]. by rewrite Nat.sub_diag.
      * split; [lia|]. by replace (i - a) with (S (i - S a)) by lia.
    + intros [Ha Hl]. destruct (decide (i = a)) as [->|Hne].
      * left. rewrite Nat.sub_diag in Hl. simpl in Hl. congruence.
      * right. split; [lia|].
        by replace (i - a) with (S (i - S a)) in Hl by lia.
Qed.

Lemma In_enumerate {A : Type} (i : nat) (c : A) (l : list A) :
  In (i, c) (enumerate l) <-> l !! i = Some c.
Proof.
  unfold enumerate. rewrite In_numbered, Nat.sub_0_r.
  split; [tauto | split; [lia | done]].
Qed.

(** [flagged] and [constrained] say what their comments say. *)
Lemma flagged_spec (s : Support) (d : Z) :
  flagged s d = true <->
  exists i, s_constraints s !! i = Some true /\
            d = (s_node s * 3 + Z.of_nat i)%Z.
Proof.
  unfold flagged. rewrite existsb_exists. split.
  - intros ([i c] & Hin & Hc). apply andb_true_iff in Hc as [-> Hd].
    apply Z.eqb_eq in Hd. apply In_enumerate in Hin. eauto.
  - intros (i & Hi & ->). exists (i, true). split.
    + by apply In_enumerate.
    + apply Z.eqb_refl.
Qed.

Lemma constrained_spec (sups : list Support) (d : Z) :
  constrained sups d = true <->
  exists s i, In s sups /\ s_constraints s !! i = Some true /\
              d = (s_node s * 3 + Z.of_nat i)%Z.
Proof.
  unfold constrained. rewrite existsb_exists. split.
  - intros (s & Hs & Hf). apply flagged_spec in Hf as (i & Hi & Hd). eauto.
  - intros (s & i & Hs & Hi & Hd). exists s. split; [done|].
    apply flagged_spec. eauto.
Qed.

Lemma constrained_app (sups1 sups2 : list Support) (d : Z) :
  constrained (sups1 ++ sups2) d =
  constrained sups1 d || constrained sups2 d.
Proof. apply existsb_app. Qed.

(** ** Displacements of constrained degrees of freedom *)

Section Displacements.
Context {num : Type} `{Scalar num} `{LinAlg num}.

(** C3.  After a successful [solve], the displacement vector that is
    returned and stored has one entry per degree of freedom; it is
    exactly zero at every degree of freedom [node * 3 + i] that a
    support flags as constrained, and at the [k]-th free degree of
    freedom it holds the [k]-th entry of the solution of the reduced
    system.  This holds for any arithmetic and any linear solver. *)
Theorem solve_constrained_displacements_zero
    (self self' : ContinuousBridgeFEM num) (U R : list num) :
  solve self = (Ok (U, R), self') ->
  displacements self' = Some U /\
  length U = length (nodes self) * 3 /\
  (forall s i, In s (supports self) ->
     s_constraints s !! i = Some true ->
     (0 <= s_node s * 3 + Z.of_nat i < Z.of_nat (length U))%Z ->
     U !! Z.to_nat (s_node s * 3 + Z.of_nat i) = Some zero) /\
  exists K F K_reduced F_reduced free_dof U_reduced,
    assemble_global_matrix self = Ok (K, F) /\
    apply_boundary_conditions self K F
      = Ok (K_reduced, F_reduced, free_dof) /\
    linalg_solve K_reduced F_reduced = Ok U_reduced /\
    forall k d, free_dof !! k = Some d ->
      exists x, U_reduced !! k = Some x /\ U !! Z.to_nat d = Some x.
Proof.
  intros Hsolve. apply solve_ok in Hsolve as [Hvalues ->].
  split; [done|].
  apply solve_values_ok in Hvalues
    as (K & F & Kr & Fr & Ur & Hasm & HK & HF & Hsol & Hsc & ->).
  destruct (assemble_global_matrix_shape self K F Hasm) as [_ HlenF].
  apply scatter_solution_spec in Hsc as (HlenU & Hfree & Hother);
    [|apply free_dofs_NoDup|];
    [|intros d Hd; apply free_dofs_In in Hd; lia].
  rewrite length_zeros in HlenU. split; [congruence|]. split.
  - intros s i Hs Hi Hd. rewrite Hother.
    + apply lookup_zeros. lia.
    + rewrite Z2Nat.id by lia. intros Hin.
      apply free_dofs_In in Hin as [_ Hc].
      enough (constrained (supports self) (s_node s * 3 + Z.of_nat i)
              = true) by congruence.
      apply constrained_spec. eauto.
  - exists K, F, Kr, Fr, (free_dofs self (length F)), Ur.
    split; [done|]. split; [|done].
    unfold apply_boundary_conditions. cbv zeta.
    rewrite HK. cbn [exc_bind]. rewrite HF. done.
Qed.
End Displacements.

(** The theorem at the span over the rationals: [solve] succeeds there. *)
Lemma solve_constrained_displacements_zero_witness :
  match solve span_Qc with
  | (Ok (U, R), self') =>
      displacements self' = Some U /\
      length U = length (nodes span_Qc) * 3 /\
      (forall s i, In s (supports span_Qc) ->
         s_constraints s !! i = Some true ->
         (0 <= s_node s * 3 + Z.of_nat i < Z.of_nat (length U))%Z ->
         U !! Z.to_nat (s_node s * 3 + Z.of_nat i) = Some zero) /\
      exists K F K_reduced F_reduced free_dof U_reduced,
        assemble_global_matrix span_Qc = Ok (K, F) /\
        apply_boundary_conditions span_Qc K F
          = Ok (K_reduced, F_reduced, free_dof) /\
        linalg_solve K_reduced F_reduced = Ok U_reduced /\
        forall k d, free_dof !! k = Some d ->
          exists x, U_reduced !! k = Some x /\ U !! Z.to_nat d = Some x
  | (Raise _, _) => False
  end.
Proof.
  destruct (solve span_Qc) as [[[U R]|e] self'] eqn:Hsolve.
  - exact (solve_constrained_displacements_zero span_Qc self' U R Hsolve).
  - vm_compute in Hsolve. discriminate.
Defined.

(** ** Supports declared more than once *)

Section DuplicateSupports.
Context {num : Type} `{Scalar num} `{LinAlg num}.

(** A support already in the list, declared again, marks nothing new. *)
Lemma constrained_duplicate (sups : list Support) (s : Support) (d : Z) :
  In s sups -> constrained (sups ++ [s]) d = constrained sups d.
Proof.
  intros Hs. rewrite constrained_app. unfold constrained at 2. simpl.
  rewrite orb_false_r. destruct (flagged s d) eqn:Hf.
  - rewrite orb_true_r. symmetry. unfold constrained.
    apply existsb_exists. eauto.
  - apply orb_false_r.
Qed.

Lemma solve_values_same_system (self self' : ContinuousBridgeFEM num) :
  nodes self' = nodes self -> elements self' = elements self ->
  loads self' = loads self ->
  (forall n, free_dofs self' n = free_dofs self n) ->
  solve_values self' = solve_values self.
Proof.
  intros Hn He Hl Hfd.
  assert (assemble_global_matrix self' = assemble_global_matrix self)
    as Hasm.
  { unfold assemble_global_matrix, assemble_load.
    by rewrite Hn, He, Hl. }
  unfold solve_values, apply_boundary_conditions. rewrite Hasm.
  destruct (assemble_global_matrix self) as [[K F]|]; cbn [exc_bind];
    [|done].
  cbv zeta. by rewrite Hfd.
Qed.

(** Supports that mark the same degrees of freedom leave the same free
    list. *)
Lemma free_dofs_same_marks (self self' : ContinuousBridgeFEM num) :
  (forall d, constrained (supports self') d = constrained (supports self) d) ->
  forall n, free_dofs self' n = free_dofs self n.
Proof.
  intros Hsame n. rewrite !free_dofs_unmarked. unfold unmarked_dofs.
  apply filter_pointwise. intros d _. by rewrite Hsame.
Qed.

(** A support that is already declared, declared a second time. *)
Lemma add_support_again (self : ContinuousBridgeFEM num) (s : Support) :
  In s (supports self) ->
  let self' := add_support self (s_node s) (s_constraints s) in
  (forall n, free_dofs self' n = free_dofs self n) /\
  solve_values self' = solve_values self.
Proof.
  intros Hs self'.
  assert (forall n, free_dofs self' n = free_dofs self n) as Hfd.
  { apply free_dofs_same_marks. intros d. unfold self', add_support. simpl.
    destruct s as [node cs]. by apply constrained_duplicate. }
  split; [done|]. by apply solve_values_same_system.
Qed.

(** C10.  Two models with the same nodes, elements and loads whose
    supports mark the same degrees of freedom, however often and in
    whatever combination each one is declared, have the same list of free
    degrees of freedom, the same reduced system and the same result of
    [solve].  In particular this holds when a support that is already
    declared is declared once more. *)
Theorem duplicate_supports_harmless (self self' : ContinuousBridgeFEM num) :
  nodes self' = nodes self -> elements self' = elements self ->
  loads self' = loads self ->
  (forall d, constrained (supports self') d = constrained (supports self) d) ->
  (forall n, free_dofs self' n = free_dofs self n) /\
  (forall K F, apply_boundary_conditions self' K F =
               apply_boundary_conditions self K F) /\
  fst (solve self') = fst (solve self) /\
  (forall U R, fst (solve self) = Ok (U, R) ->
     displacements (snd (solve self')) = displacements (snd (solve self)) /\
     reactions (snd (solve self')) = reactions (snd (solve self))).
Proof.
  intros Hn He Hl Hsame.
  pose proof (free_dofs_same_marks self self' Hsame) as Hfd.
  pose proof (solve_values_same_system self self' Hn He Hl Hfd) as Hval.
  split; [done|]. split; [|split].
  - intros K F. unfold apply_boundary_conditions. cbv zeta. by rewrite Hfd.
  - unfold solve. rewrite Hval.
    by destruct (solve_values self) as [[U R]|e].
  - intros U R. unfold solve. rewrite Hval.
    destruct (solve_values self) as [[U1 R1]|e]; [done | discriminate].
Qed.

End DuplicateSupports.

(** The theorem at the span over the rationals, with its pin support
    declared a second time. *)
Lemma duplicate_supports_harmless_witness :
  let self := span_Qc in
  let self' := add_support span_Qc 0 pin in
  (forall n, free_dofs self' n = free_dofs self n) /\
  (forall K F, apply_boundary_conditions self' K F =
               apply_boundary_conditions self K F) /\
  fst (solve self') = fst (solve self) /\
  (forall U R, fst (solve self) = Ok (U, R) ->
     displacements (snd (solve self')) = displacements (snd (solve self)) /\
     reactions (snd (solve self')) = reactions (snd (solve self))).
Proof.
  apply (duplicate_supports_harmless span_Qc (add_support span_Qc 0 pin));
    [reflexivity | reflexivity | reflexivity |].
  intros d. apply (constrained_duplicate (supports span_Qc)
    {| s_node := 0; s_constraints := pin |} d).
  left. reflexivity.
Defined.

(** ** Support reactions *)

Lemma getitem_nat_iff {A : Type} (l : list A) (k : nat) (x : A) :
  getitem l (Z.of_nat k) = Ok x <-> l !! k = Some x.
Proof.
  split; [|apply getitem_nat].
  intros Hx. apply getitem_ok in Hx as (j & Hj & Hx).
  apply py_index_some in Hj as [[_ ->]|[Hj _]]; [|lia].
  by rewrite Nat2Z.id in Hx.
Qed.

Section Reactions.
Context {num : Type} `{Scalar num} `{LinAlg num}.

Lemma masked_reaction_ok (self : ContinuousBridgeFEM num) (R : list num)
    (c : list bool) (k : nat) (idx : Z) (x : num) :
  reactions self = Some R ->
  masked_reaction self c (Z.of_nat k) idx = Ok x <->
  masked_component c k R idx x.
Proof.
  intros HR. unfold masked_reaction, masked_component, get_reactions.
  rewrite HR. destruct (c !! k) as [b|] eqn:Hk.
  - apply getitem_nat in Hk. rewrite Hk. cbn [exc_bind].
    destruct b; cbn [exc_bind]; [done|]. split; congruence.
  - destruct (getitem c (Z.of_nat k)) as [b|] eqn:Hg; cbn [exc_bind].
    + apply getitem_nat_iff in Hg. congruence.
    + done.
Qed.

Lemma support_reaction_ok (self : ContinuousBridgeFEM num) (R : list num)
    (s : Support) (r : Reaction num) :
  reactions self = Some R ->
  support_reaction self s = Ok r ->
  r_node r = s_node s /\
  masked_component (s_constraints s) 0 R (s_node s * 3) (r_Rx r) /\
  masked_component (s_constraints s) 1 R (s_node s * 3 + 1) (r_Ry r) /\
  masked_component (s_constraints s) 2 R (s_node s * 3 + 2) (r_Mz r).
Proof.
  intros HR. unfold support_reaction. cbv zeta.
  destruct (masked_reaction self _ 0 _) as [Rx|] eqn:Hx; cbn [exc_bind];
    [|discriminate].
  destruct (masked_reaction self _ 1 _) as [Ry|] eqn:Hy; cbn [exc_bind];
    [|discriminate].
  destruct (masked_reaction self _ 2 _) as [Mz|] eqn:Hz; cbn [exc_bind];
    [|discriminate].
  intros [= <-]. simpl.
  apply (masked_reaction_ok self R _ 0) in Hx; [|done].
  apply (masked_reaction_ok self R _ 1) in Hy; [|done].
  apply (masked_reaction_ok self R _ 2) in Hz; [|done].
  done.
Qed.

Lemma masked_reaction_defined (self : ContinuousBridgeFEM num)
    (R : list num) (c : list bool) (k : nat) (idx : Z) :
  reactions self = Some R -> k < length c ->
  (c !! k = Some true -> py_index (length R) idx <> None) ->
  exists x, masked_reaction self c (Z.of_nat k) idx = Ok x.
Proof.
  intros HR Hk Hidx. unfold masked_reaction, get_reactions. rewrite HR.
  apply lookup_lt_is_Some_2 in Hk as [b Hb].
  rewrite (getitem_nat _ _ _ Hb). cbn [exc_bind].
  destruct b; cbn [exc_bind]; [|eauto].
  destruct (getitem R idx) as [x|e] eqn:Hg; [eauto|].
  apply getitem_raise in Hg as [_ Hg]. by destruct (Hidx Hb).
Qed.

(** C9.  On a solved model, whose reaction vector is [R], every entry of
    the list that [get_support_reactions] returns belongs to the support
    at the same position: it carries that support's node, and each of its
    three components is [R] at the node's degree of freedom when the
    support's flag for it is set and exactly zero when the flag is not
    set, whatever [R] holds there.  The call succeeds as soon as every
    support has its three flags and the degrees of freedom it flags are
    indices of [R]. *)
Theorem support_reactions_masked (self : ContinuousBridgeFEM num)
    (R : list num) :
  reactions self = Some R ->
  (forall rs, get_support_reactions self = Ok rs ->
     length rs = length (supports self) /\
     forall k s, supports self !! k = Some s ->
       exists r, rs !! k = Some r /\
         r_node r = s_node s /\
         masked_component (s_constraints s) 0 R (s_node s * 3) (r_Rx r) /\
         masked_component (s_constraints s) 1 R (s_node s * 3 + 1)
           (r_Ry r) /\
         masked_component (s_constraints s) 2 R (s_node s * 3 + 2)
           (r_Mz r)) /\
  ((forall s, In s (supports self) ->
      3 <= length (s_constraints s) /\
      forall i, i < 3 -> s_constraints s !! i = Some true ->
        py_index (length R) (s_node s * 3 + Z.of_nat i) <> None) ->
   exists rs, get_support_reactions self = Ok rs).
Proof.
  intros HR. unfold get_support_reactions. split.
  - intros rs Hrs. split; [exact (map_exc_length _ _ _ Hrs)|].
    intros k s Hs.
    destruct (map_exc_lookup _ _ _ k s Hrs Hs) as (r & Hr & Hsr).
    exists r. split; [done|]. exact (support_reaction_ok self R s r HR Hsr).
  - intros Hwf. apply map_exc_all_ok. intros s Hs.
    destruct (Hwf s Hs) as [Hlen Hidx]. unfold support_reaction. cbv zeta.
    destruct (masked_reaction_defined self R (s_constraints s) 0
      (s_node s * 3) HR) as [Rx HRx]; [lia| |].
    { intros Hc. specialize (Hidx 0). rewrite Z.add_0_r in Hidx.
      apply Hidx; [lia | done]. }
    destruct (masked_reaction_defined self R (s_constraints s) 1
      (s_node s * 3 + 1) HR) as [Ry HRy]; [lia| |].
    { intros Hc. apply (Hidx 1); [lia | done]. }
    destruct (masked_reaction_defined self R (s_constraints s) 2
      (s_node s * 3 + 2) HR) as [Mz HMz]; [lia| |].
    { intros Hc. apply (Hidx 2); [lia | done]. }
    change (Z.of_nat 0) with 0%Z in HRx. change (Z.of_nat 1) with 1%Z in HRy.
    change (Z.of_nat 2) with 2%Z in HMz. rewrite HRx, HRy, HMz.
    cbn [exc_bind]. eauto.
Qed.
End Reactions.

(** The theorem at the span over the rationals, after [solve]. *)
Lemma support_reactions_masked_witness :
  let self := snd (solve span_Qc) in
  match reactions self with
  | Some R =>
      (forall rs, get_support_reactions self = Ok rs ->
         length rs = length (supports self) /\
         forall k s, supports self !! k = Some s ->
           exists r, rs !! k = Some r /\
             r_node r = s_node s /\
             masked_component (s_constraints s) 0 R (s_node s * 3)
               (r_Rx r) /\
             masked_component (s_constraints s) 1 R (s_node s * 3 + 1)
               (r_Ry r) /\
             masked_component (s_constraints s) 2 R (s_node s * 3 + 2)
               (r_Mz r)) /\
      ((forall s, In s (supports self) ->
          3 <= length (s_constraints s) /\
          forall i, i < 3 -> s_constraints s !! i = Some true ->
            py_index (length R) (s_node s * 3 + Z.of_nat i) <> None) ->
       exists rs, get_support_reactions self = Ok rs)
  | None => False
  end.
Proof.
  intros self. destruct (reactions self) as [R|] eqn:HR.
  - exact (support_reactions_masked self R HR).
  - vm_compute in HR. discriminate.
Defined.

(** ** Result accessors before [solve] *)

Section Unsolved.
Context {num : Type} `{Scalar num} `{LinAlg num}.

(** Building the model leaves the result attributes absent, and so does
    a [solve] that raises. *)
Lemma init_unsolved :
  displacements (@init num) = None /\ reactions (@init num) = None.
Proof. done. Qed.

Lemma add_support_unsolved (self : ContinuousBridgeFEM num) (node_id : Z)
    (constraints : list bool) :
  reactions (add_support self node_id constraints) = reactions self /\
  displacements (add_support self node_id constraints) = displacements self.
Proof. done. Qed.

Lemma add_load_unsolved (self : ContinuousBridgeFEM num) (load : Load num) :
  reactions (add_load self load) = reactions self /\
  displacements (add_load self load) = displacements self.
Proof. done. Qed.

Lemma masked_reaction_unsolved (self : ContinuousBridgeFEM num)
    (c : list bool) (k : nat) (idx : Z) (b : bool) :
  reactions self = None -> c !! k = Some b ->
  masked_reaction self c (Z.of_nat k) idx =
  if b then Raise AttributeError else Ok zero.
Proof.
  intros HR Hb. unfold masked_reaction, get_reactions.
  rewrite HR, (getitem_nat _ _ _ Hb). by destruct b.
Qed.

Lemma support_reaction_unsolved (self : ContinuousBridgeFEM num)
    (s : Support) :
  reactions self = None -> 3 <= length (s_constraints s) ->
  support_reaction self s =
  if constrains_some s then Raise AttributeError else Ok (zero_reaction s).
Proof.
  intros HR Hlen. unfold support_reaction, constrains_some, zero_reaction.
  cbv zeta. destruct (s_constraints s) as [|c0 [|c1 [|c2 cs]]] eqn:Hcs;
    simpl in Hlen; try lia.
  set (c := c0 :: c1 :: c2 :: cs).
  rewrite (masked_reaction_unsolved self c 0 _ c0 HR eq_refl).
  rewrite (masked_reaction_unsolved self c 1 _ c1 HR eq_refl).
  rewrite (masked_reaction_unsolved self c 2 _ c2 HR eq_refl).
  by destruct c0, c1, c2.
Qed.

(** C8 as amended.  While the result attributes are absent, reading the
    displacements or the reactions raises [AttributeError];
    [get_support_reactions], on supports that have their three flags,
    raises [AttributeError] when some support has a flag set and
    otherwise returns, without an error, one all-zero entry per support
    (the empty list for a model without supports). *)
Theorem unsolved_accessors (self : ContinuousBridgeFEM num) :
  displacements self = None -> reactions self = None ->
  Forall (fun s => 3 <= length (s_constraints s)) (supports self) ->
  get_displacements self = Raise AttributeError /\
  get_reactions self = Raise AttributeError /\
  get_support_reactions self =
    if existsb constrains_some (supports self) then Raise AttributeError
    else Ok (map zero_reaction (supports self)).
Proof.
  intros HU HR Hwf. unfold get_displacements, get_reactions.
  rewrite HU, HR. split; [done|]. split; [done|].
  unfold get_support_reactions.
  induction Hwf as [|s sups Hs Hwf IH]; [done|]. simpl.
  rewrite (support_reaction_unsolved self s HR Hs).
  destruct (constrains_some s); cbn [exc_bind orb]; [done|].
  rewrite IH. by destruct (existsb constrains_some sups).
Qed.
End Unsolved.

(** The theorem at the span over the rationals before [solve]: its
    supports have flags set, so the accessor raises. *)
Lemma unsolved_accessors_witness :
  get_displacements span_Qc = Raise AttributeError /\
  get_reactions span_Qc = Raise AttributeError /\
  get_support_reactions span_Qc =
    if existsb constrains_some (supports span_Qc) then Raise AttributeError
    else Ok (map zero_reaction (supports span_Qc)).
Proof.
  apply (unsolved_accessors span_Qc); [reflexivity | reflexivity |].
  repeat constructor.
Defined.

(** C8, counterexample.  On a model that was never solved,
    [get_support_reactions] returns normally: the empty list when no
    support is declared, and silent zeros for a support without a set
    flag. *)
Lemma unsolved_accessor_counterexample :
  let fresh : ContinuousBridgeFEM Qc := init in
  let free_node := add_support fresh 0 [false; false; false] in
  displacements fresh = None /\ reactions fresh = None /\
  get_support_reactions fresh = Ok [] /\
  displacements free_node = None /\ reactions free_node = None /\
  get_support_reactions free_node =
    Ok [ {| r_node := 0%Z; r_Rx := zero; r_Ry := zero; r_Mz := zero |} ].
Proof. repeat split; reflexivity. Qed.

(** ** References to nodes and elements that do not exist *)

Section References.
Context {num : Type} `{Scalar num} `{LinAlg num}.

Lemma add_element_raise (self : ContinuousBridgeFEM num) (node1 node2 : Z)
    (E A I : num) :
  py_index (length (nodes self)) node1 = None \/
  py_index (length (nodes self)) node2 = None ->
  add_element self node1 node2 E A I = Raise IndexError.
Proof.
  intros Hbad. unfold add_element.
  destruct (getitem (nodes self) node1) as [[x1 y1]|e1] eqn:H1;
    cbn [exc_bind].
  - destruct (getitem (nodes self) node2) as [[x2 y2]|e2] eqn:H2;
      cbn [exc_bind].
    + apply getitem_ok in H1 as (k1 & Hk1 & _).
      apply getitem_ok in H2 as (k2 & Hk2 & _).
      destruct Hbad; congruence.
    + by apply getitem_raise in H2 as [-> _].
  - by apply getitem_raise in H1 as [-> _].
Qed.

Lemma add_element_ok (self : ContinuousBridgeFEM num) (node1 node2 : Z)
    (E A I : num) :
  py_index (length (nodes self)) node1 <> None ->
  py_index (length (nodes self)) node2 <> None ->
  exists self', add_element self node1 node2 E A I
    = Ok (self', Z.of_nat (length (elements self))) /\
    nodes self' = nodes self /\
    exists el, elements self' = elements self ++ [el] /\
      e_nodes el = (node1, node2).
Proof.
  intros H1 H2. unfold add_element.
  destruct (getitem (nodes self) node1) as [[x1 y1]|e1] eqn:Hg1.
  2:{ apply getitem_raise in Hg1 as [_ Hg1]. done. }
  destruct (getitem (nodes self) node2) as [[x2 y2]|e2] eqn:Hg2.
  2:{ apply getitem_raise in Hg2 as [_ Hg2]. done. }
  cbn [exc_bind]. eexists. split.
  - f_equal. f_equal. simpl. rewrite length_app. simpl. lia.
  - simpl. split; [done|]. eexists. split; done.
Qed.

(** Assembly of a model whose last load cannot be assembled raises
    [IndexError]. *)
Lemma assemble_bad_last_load (self : ContinuousBridgeFEM num)
    (load : Load num) :
  (forall F, length F = length (nodes self) * 3 ->
     assemble_load (add_load self load) load F = Raise IndexError) ->
  assemble_global_matrix (add_load self load) = Raise IndexError.
Proof.
  intros Hbad.
  destruct (assemble_global_matrix (add_load self load)) as [[K F]|e]
    eqn:Hasm.
  - exfalso. unfold assemble_global_matrix in Hasm. cbv zeta in Hasm.
    destruct (for_each (elements _) _ _) as [K1|]; cbn [exc_bind] in Hasm;
      [|discriminate].
    destruct (for_each (loads _) _ _) as [F1|] eqn:HF;
      cbn [exc_bind] in Hasm; [|discriminate].
    change (loads (add_load self load)) with (loads self ++ [load]) in HF.
    rewrite for_each_app in HF.
    destruct (for_each (loads self) _ _) as [F2|] eqn:HF2;
      cbn [exc_bind] in HF; [|discriminate].
    simpl in HF. rewrite Hbad in HF; [discriminate|].
    revert HF2.
    apply (for_each_invariant
             (fun F3 => length F3 = length (nodes self) * 3));
      [|apply length_zeros].
    intros l F3 F4 _ HF3 Hl. apply assemble_load_length in Hl. congruence.
  - by apply assemble_global_matrix_raise in Hasm as ->.
Qed.

Lemma solve_assemble_raise (self : ContinuousBridgeFEM num) (e : PyError) :
  assemble_global_matrix self = Raise e -> solve self = (Raise e, self).
Proof.
  intros Hasm. unfold solve, solve_values. by rewrite Hasm.
Qed.

Lemma py_index_dof_none (n : nat) (node : Z) :
  py_index n node = None -> py_index (n * 3) (node * 3) = None.
Proof. rewrite !py_index_none. lia. Qed.

(** C7 as amended.  [add_element] raises [IndexError] at the call when
    one of its node indices is outside the node list.  The two load
    methods check nothing: they return normally with the load appended,
    also when its node or element index is outside the list, and it is
    the following [solve] that raises [IndexError], leaving the model as
    it was. *)
Theorem invalid_references (self : ContinuousBridgeFEM num) (id : Z) :
  py_index (length (nodes self)) id = None ->
  py_index (length (elements self)) id = None ->
  (forall node2 E A I,
     add_element self id node2 E A I = Raise IndexError /\
     add_element self node2 id E A I = Raise IndexError) /\
  (forall q,
     let self' := add_distributed_load self id q in
     loads self' = loads self ++ [Distributed id q] /\
     solve self' = (Raise IndexError, self')) /\
  (forall fx fy mz,
     let self' := add_point_load self id fx fy mz in
     loads self' = loads self ++ [Point id (fx, fy, mz)] /\
     solve self' = (Raise IndexError, self')).
Proof.
  intros Hnode Helement. split; [|split].
  - intros node2 E A I. split; apply add_element_raise; tauto.
  - intros q self'. split; [done|].
    apply solve_assemble_raise, assemble_bad_last_load. intros F _.
    unfold assemble_load.
    change (elements (add_load self (Distributed id q)))
      with (elements self).
    destruct (getitem (elements self) id) as [el|e] eqn:Hel.
    + apply getitem_ok in Hel as (k & Hk & _). congruence.
    + by apply getitem_raise in Hel as [-> _].
  - intros fx fy mz self'. split; [done|].
    apply solve_assemble_raise, assemble_bad_last_load. intros F HF.
    unfold assemble_load, iadd_at at 1.
    by rewrite HF, (py_index_dof_none _ _ Hnode).
Qed.
End References.

(** The theorem at the span over the rationals, for the index 2, which
    is neither a node nor an element of it. *)
Lemma invalid_references_witness :
  (forall node2 E A I,
     add_element span_Qc 2 node2 E A I = Raise IndexError /\
     add_element span_Qc node2 2 E A I = Raise IndexError) /\
  (forall q,
     let self' := add_distributed_load span_Qc 2 q in
     loads self' = loads span_Qc ++ [Distributed 2 q] /\
     solve self' = (Raise IndexError, self')) /\
  (forall fx fy mz,
     let self' := add_point_load span_Qc 2 fx fy mz in
     loads self' = loads span_Qc ++ [Point 2 (fx, fy, mz)] /\
     solve self' = (Raise IndexError, self')).
Proof.
  apply (invalid_references span_Qc 2); reflexivity.
Defined.

(** C7, counterexample.  On a model without nodes and elements the two
    load methods accept the index 5 and store the load; the error comes
    from [solve]. *)
Lemma invalid_reference_counterexample :
  let fresh : ContinuousBridgeFEM Qc := init in
  let one := qc 1 1 in
  loads (add_point_load fresh 5 one one one)
    = [Point 5 (one, one, one)] /\
  loads (add_distributed_load fresh 5 one) = [Distributed 5 one] /\
  fst (solve (add_point_load fresh 5 one one one)) = Raise IndexError /\
  fst (solve (add_distributed_load fresh 5 one)) = Raise IndexError.
Proof. repeat split; reflexivity. Qed.

(** * Exact arithmetic: the instance over the real numbers *)

(** Exposes the operations of the real instance to [ring], [field] and
    [lra]. *)
Ltac rsimp :=
  unfold zero in *;
  cbn [of_Z nadd nsub nmul ndiv nneg npow nabs nltb neqb R_scalar
       Rpow_def.pow] in *.

Section RealVectors.
Local Open Scope R_scope.

Lemma dot_nil_r (a : list R) : dot a [] = 0.
Proof. by destruct a. Qed.






End RealVectors.

(** ** Gaussian elimination with partial pivoting *)

Section Pivoting.
Local Open Scope R_scope.







End Pivoting.


Section Elimination.
Local Open Scope R_scope.









End Elimination.

(** ** The solver on a square system *)

Section SolveSystem.
Local Open Scope R_scope.








End SolveSystem.

(** ** Equivalent nodal loads *)

Section NodalLoads.
Local Open Scope R_scope.

(** C5.  The equivalent nodal loads of a uniform load [q] on an element
    of length [L] are [0, qL/2, qL^2/12, 0, qL/2, -qL^2/12]: nothing at
    the two axial degrees of freedom, the shear [qL/2] at both transverse
    ones, the moment [qL^2/12] at the rotation of the first node and its
    opposite at the rotation of the second; the six entries carry the
    whole load [qL] and no net end moment.  (Exact arithmetic; no
    condition on [L] is needed.) *)
Theorem equivalent_nodal_loads_formula (self : SimpleFEMBeam R) (q : R) :
  let L := beam_L self in
  equivalent_nodal_loads self q =
    [0; q * L / 2; q * L ^ 2 / 12; 0; q * L / 2; - (q * L ^ 2 / 12)] /\
  component (equivalent_nodal_loads self q) 1
    + component (equivalent_nodal_loads self q) 4 = q * L /\
  component (equivalent_nodal_loads self q) 2
    + component (equivalent_nodal_loads self q) 5 = 0.
Proof.
  intros L. unfold equivalent_nodal_loads, component. fold L. simpl.
  rsimp. repeat split; [|field|field].
  repeat f_equal. field.
Qed.
End NodalLoads.

(** ** Sums *)

Section Sums.
Local Open Scope R_scope.

Lemma sum_over_ext {A : Type} (l : list A) (f g : A -> R) :
  (forall x, In x l -> f x = g x) -> sum_over l f = sum_over l g.
Proof.
  induction l as [|x l IH]; intros Hfg; simpl; [done|].
  rewrite (Hfg x) by (by left). rewrite IH; [done|].
  intros y Hy. apply Hfg. by right.
Qed.

Lemma sum_over_zero {A : Type} (l : list A) :
  sum_over l (fun _ => 0) = 0.
Proof. induction l as [|x l IH]; simpl; [done|]. rewrite IH. ring. Qed.

Lemma sum_over_plus {A : Type} (l : list A) (f g : A -> R) :
  sum_over l (fun x => f x + g x) = sum_over l f + sum_over l g.
Proof. induction l as [|x l IH]; simpl; [ring|]. rewrite IH. ring. Qed.

Lemma sum_over_swap {A B : Type} (l : list A) (l' : list B)
    (f : A -> B -> R) :
  sum_over l (fun x => sum_over l' (fun y => f x y)) =
  sum_over l' (fun y => sum_over l (fun x => f x y)).
Proof.
  induction l as [|x l IH]; simpl.
  - by rewrite sum_over_zero.
  - by rewrite sum_over_plus, IH.
Qed.

End Sums.

(** ** Entries of the assembled matrix *)

Section Entries.
Local Open Scope R_scope.

Lemma entry_lookup (K : list (list R)) (i j : nat) :
  entry K i j = default 0 (default [] (K !! i) !! j).
Proof. unfold entry. by rewrite !nth_lookup. Qed.

Lemma nth_repeat_cases {A : Type} (x d : A) (n i : nat) :
  nth i (repeat x n) d = x \/ nth i (repeat x n) d = d.
Proof.
  revert i. induction n as [|n IH]; intros [|i]; simpl; auto.
Qed.

Lemma entry_zeros2 (r c i j : nat) :
  entry (zeros2 r c : list (list R)) i j = 0.
Proof.
  unfold entry, zeros2, zeros.
  destruct (nth_repeat_cases (repeat (@zero R _) c) [] r i) as [-> | ->].
  - by destruct (nth_repeat_cases (@zero R _) zero c j) as [-> | ->].
  - by destruct j.
Qed.

Lemma hit_swap (n : nat) (a b : Z) (p q : nat) :
  hit n a b p q = hit n b a q p.
Proof.
  unfold hit. destruct (py_index n a), (py_index n b); try done.
  apply andb_comm.
Qed.

(** [K[a, b] += x] adds [x] to the entry that [(a, b)] addresses and to
    no other. *)
Lemma entry_iadd_at2 (n : nat) (K K' : list (list R)) (a b : Z) (x : R) :
  is_matrix n n K -> iadd_at2 K a b x = Ok K' ->
  forall p q, entry K' p q = entry K p q + (if hit n a b p q then x else 0).
Proof.
  intros [Hlen Hrows] Hadd p q. unfold iadd_at2 in Hadd. unfold hit.
  rewrite Hlen in Hadd.
  destruct (py_index n a) as [r|] eqn:Hr; [|discriminate].
  destruct (K !! r) as [row|] eqn:Hrow; [|discriminate].
  assert (length row = n) as Hrl.
  { exact (Forall_lookup_1 _ K r row Hrows Hrow). }
  rewrite Hrl in Hadd.
  destruct (py_index n b) as [c|] eqn:Hc; [|discriminate].
  injection Hadd as <-.
  apply py_index_lt in Hr. apply py_index_lt in Hc.
  rewrite !entry_lookup.
  destruct (Nat.eqb_spec r p) as [<-|Hrp]; simpl.
  - rewrite list_lookup_insert_eq by lia. rewrite Hrow. simpl.
    destruct (Nat.eqb_spec c q) as [<-|Hcq].
    + rewrite list_lookup_alter_eq.
      destruct (row !! c) as [y|] eqn:Hy; simpl; [rsimp; done|].
      apply lookup_ge_None in Hy. lia.
    + rewrite list_lookup_alter_ne by done. ring.
  - rewrite list_lookup_insert_ne by done. ring.
Qed.

(** A loop of additions adds the sum of what its iterations add. *)
Lemma for_each_sum {A : Type} (n : nat) (l : list A)
    (body : A -> list (list R) -> Exc (list (list R)))
    (c : A -> nat -> nat -> R) (K K' : list (list R)) :
  (forall x T T', is_matrix n n T -> body x T = Ok T' ->
     is_matrix n n T' /\
     forall p q, entry T' p q = entry T p q + c x p q) ->
  is_matrix n n K -> for_each l body K = Ok K' ->
  is_matrix n n K' /\
  forall p q, entry K' p q = entry K p q + sum_over l (fun x => c x p q).
Proof.
  intros Hbody. revert K. induction l as [|x l IH]; intros K HK; simpl.
  - intros [= <-]. split; [done|]. intros p q. ring.
  - destruct (body x K) as [T|e] eqn:Hx; cbn [exc_bind]; [|discriminate].
    intros Hrest. destruct (Hbody x K T HK Hx) as [HT Hent].
    destruct (IH T HT Hrest) as [HK' Hent']. split; [done|].
    intros p q. rewrite Hent', Hent. ring.
Qed.

(** The scatter-add of one element matrix. *)
Lemma scatter_stiffness_entries (n : nat) (dm : list Z)
    (k K K' : list (list R)) :
  is_matrix n n K -> scatter_stiffness dm k K = Ok K' ->
  is_matrix n n K' /\
  forall p q, entry K' p q = entry K p q + scattered n dm k p q.
Proof.
  unfold scatter_stiffness, scattered.
  apply (for_each_sum n (seq 0 6) _
    (fun m p q => sum_over (seq 0 6) (fun j =>
       if hit n (local_dof dm m) (local_dof dm j) p q
       then local_mat k m j else 0))).
  intros m T T'.
  apply (for_each_sum n (seq 0 6) _
    (fun j p q => if hit n (local_dof dm m) (local_dof dm j) p q
                  then local_mat k m j else 0)).
  intros j T1 T2 HT1 Hadd. split.
  - by apply (iadd_at2_matrix n n T1 T2 _ _ _ HT1 Hadd).
  - by apply entry_iadd_at2.
Qed.

(** The element stiffness matrix is symmetric, entry by entry. *)
Lemma stiffness_matrix_symmetric (self : SimpleFEMBeam R) (m j : nat) :
  In m (seq 0 6) -> In j (seq 0 6) ->
  local_mat (stiffness_matrix self) m j =
  local_mat (stiffness_matrix self) j m.
Proof.
  simpl. intros Hm Hj.
  repeat (destruct Hm as [<-|Hm]); try done;
    repeat (destruct Hj as [<-|Hj]); try done.
Qed.

(** So what an element adds at [(p, q)] it adds at [(q, p)]. *)
Lemma scattered_symmetric (n : nat) (dm : list Z) (self : SimpleFEMBeam R)
    (p q : nat) :
  scattered n dm (stiffness_matrix self) p q =
  scattered n dm (stiffness_matrix self) q p.
Proof.
  unfold scattered. rewrite sum_over_swap.
  apply sum_over_ext. intros m Hm. apply sum_over_ext. intros j Hj.
  rewrite (hit_swap n _ _ q p).
  by rewrite (stiffness_matrix_symmetric self m j).
Qed.

(** The assembled matrix, entry by entry. *)
Lemma assemble_entries (self : ContinuousBridgeFEM R) (K : list (list R))
    (F : list R) :
  assemble_global_matrix self = Ok (K, F) ->
  let n := (length (nodes self) * 3)%nat in
  is_matrix n n K /\
  forall p q, entry K p q =
    sum_over (elements self) (fun element =>
      scattered n (dof_map (fst (e_nodes element)) (snd (e_nodes element)))
        (stiffness_matrix (beam_of element)) p q).
Proof.
  unfold assemble_global_matrix. cbv zeta.
  set (n := (length (nodes self) * 3)%nat).
  destruct (for_each (elements self) _ (zeros2 n n)) as [K1|] eqn:HK;
    cbn [exc_bind]; [|discriminate].
  destruct (for_each (loads self) _ _) as [F1|]; cbn [exc_bind];
    [|discriminate].
  intros [= <- <-].
  apply (for_each_sum n (elements self) _
    (fun element p q =>
       scattered n (dof_map (fst (e_nodes element)) (snd (e_nodes element)))
         (stiffness_matrix (beam_of element)) p q)) in HK
    as [Hm Hent].
  - split; [done|]. intros p q. rewrite Hent, entry_zeros2. ring.
  - intros element T T' HT. destruct (e_nodes element) as [node1 node2].
    simpl. by apply scatter_stiffness_entries.
  - apply zeros2_matrix.
Qed.

(** C2.  Whenever [assemble_global_matrix] returns, the matrix [K] it
    returns has [3N] rows of [3N] entries ([N] the number of nodes) and
    is symmetric: [K[i][j] = K[j][i]] for all [i], [j] below [3N].  This
    holds for any elements, supports and loads, in exact arithmetic. *)
Theorem assembled_stiffness_symmetric (self : ContinuousBridgeFEM R)
    (K : list (list R)) (F : list R) :
  assemble_global_matrix self = Ok (K, F) ->
  let n := (length (nodes self) * 3)%nat in
  is_matrix n n K /\
  forall i j, (i < n)%nat -> (j < n)%nat ->
    exists x, K !! i ≫= (.!! j) = Some x /\ K !! j ≫= (.!! i) = Some x.
Proof.
  intros Hasm n. destruct (assemble_entries self K F Hasm) as [Hm Hent].
  fold n in Hm, Hent. split; [done|]. intros i j Hi Hj.
  assert (entry K i j = entry K j i) as Hsym.
  { rewrite !Hent. apply sum_over_ext. intros element _.
    apply scattered_symmetric. }
  rewrite !entry_lookup in Hsym. destruct Hm as [Hlen Hrows].
  destruct (lookup_lt_is_Some_2 K i) as [ri Hri]; [lia|].
  destruct (lookup_lt_is_Some_2 K j) as [rj Hrj]; [lia|].
  pose proof (Forall_lookup_1 _ K i ri Hrows Hri) as Hli.
  pose proof (Forall_lookup_1 _ K j rj Hrows Hrj) as Hlj.
  simpl in Hli, Hlj.
  destruct (lookup_lt_is_Some_2 ri j) as [x Hx]; [lia|].
  destruct (lookup_lt_is_Some_2 rj i) as [y Hy]; [lia|].
  rewrite Hri, Hrj in Hsym. simpl in Hsym. rewrite Hx, Hy in Hsym.
  simpl in Hsym. subst y. exists x. rewrite Hri, Hrj. simpl. done.
Qed.
End Entries.

(** ** The reduced system *)

Lemma map_exc_map {A B : Type} (f : A -> Exc B) (g : A -> B) (l : list A) :
  (forall x, In x l -> f x = Ok (g x)) -> map_exc f l = Ok (map g l).
Proof.
  induction l as [|x l IH]; intros Hfg; simpl; [done|].
  rewrite (Hfg x) by (by left). cbn [exc_bind].
  rewrite IH; [done|]. intros y Hy. apply Hfg. by right.
Qed.

Lemma getitem_in_range {A : Type} (l : list A) (d : Z) (x : A) :
  (0 <= d < Z.of_nat (length l))%Z ->
  getitem l d = Ok (nth (Z.to_nat d) l x).
Proof.
  intros Hd. apply getitem_ok. exists (Z.to_nat d).
  split; [by apply py_index_nonneg|].
  rewrite nth_lookup.
  destruct (lookup_lt_is_Some_2 l (Z.to_nat d)) as [y ->]; [lia | done].
Qed.


(** [F[idx]] and [K[np.ix_(rows, cols)]] on indices in range. *)
Section Selection.
Context {num : Type} `{Scalar num}.

Lemma take_indices_ok (F : list num) (idx : list Z) :
  (forall d, In d idx -> (0 <= d < Z.of_nat (length F))%Z) ->
  take_indices F idx = Ok (subvector F idx).
Proof.
  intros Hidx. unfold take_indices, subvector. apply map_exc_map.
  intros d Hd. by apply getitem_in_range, Hidx.
Qed.

Lemma ix_ok (n : nat) (K : list (list num)) (rows cols : list Z) :
  is_matrix n n K ->
  (forall d, In d rows -> (0 <= d < Z.of_nat n)%Z) ->
  (forall d, In d cols -> (0 <= d < Z.of_nat n)%Z) ->
  ix_ K rows cols = Ok (submatrix K rows cols).
Proof.
  intros [Hlen Hrows] Hr Hc. unfold ix_, submatrix. apply map_exc_map.
  intros d Hd. rewrite (getitem_in_range K d []) by (rewrite Hlen; auto).
  cbn [exc_bind]. apply take_indices_ok. intros c Hin.
  assert (length (nth (Z.to_nat d) K []) = n) as ->; [|auto].
  rewrite List.Forall_forall in Hrows. apply Hrows, nth_In.
  specialize (Hr d Hd). lia.
Qed.
End Selection.

Section Reduction.
Local Open Scope R_scope.








(** The steps of [solve] on an assembled system, with the reduced system
    written out. *)
Lemma solve_values_reduced (self : ContinuousBridgeFEM R)
    (K : list (list R)) (F : list R) :
  assemble_global_matrix self = Ok (K, F) ->
  let fd := free_dofs self (length F) in
  solve_values self =
    (do U_reduced <- gesv (submatrix K fd fd) (subvector F fd);
     do U <- scatter_solution fd U_reduced (zeros (length F));
     Ok (U, vsub (matvec K U) F)).
Proof.
  intros Hasm fd.
  destruct (assemble_global_matrix_shape self K F Hasm) as [HK HF].
  assert (forall d, In d fd -> (0 <= d < Z.of_nat (length F))%Z) as Hfd.
  { intros d Hd. by apply free_dofs_In in Hd as [Hd _]. }
  unfold solve_values, apply_boundary_conditions. rewrite Hasm.
  cbn [exc_bind]. cbv zeta. fold fd.
  rewrite (ix_ok (length F) K fd fd) by (done || by rewrite HF).
  cbn [exc_bind]. rewrite (take_indices_ok F fd Hfd). cbn [exc_bind].
  done.
Qed.

End Reduction.

(** ** Reactions as the residual of the solve *)

Section Residual.
Local Open Scope R_scope.

End Residual.

(** * Further properties of the model builder and of the solver *)

(** ** Building the model *)

Section Builder.
Context {num : Type} `{Scalar num} `{LinAlg num}.

(** X1.  [add_node] returns the number of nodes there were before the
    call; the new node is stored under the returned id, every node keeps
    the non-negative id it had, and nothing else of the model changes. *)
Theorem add_node_returns_new_id (self : ContinuousBridgeFEM num)
    (x y : num) :
  let self' := fst (add_node self x y) in
  let id := snd (add_node self x y) in
  id = Z.of_nat (length (nodes self)) /\
  getitem (nodes self') id = Ok (x, y) /\
  length (nodes self') = S (length (nodes self)) /\
  (forall k p, nodes self !! k = Some p ->
     getitem (nodes self') (Z.of_nat k) = Ok p) /\
  elements self' = elements self /\ supports self' = supports self /\
  loads self' = loads self /\ displacements self' = displacements self /\
  reactions self' = reactions self.
Proof.
  simpl. rewrite length_app. simpl.
  replace (Z.of_nat (length (nodes self) + 1) - 1)%Z
    with (Z.of_nat (length (nodes self))) by lia.
  split; [done|]. split.
  - apply getitem_nat. rewrite lookup_app_r by lia.
    by rewrite Nat.sub_diag.
  - split; [lia|]. split; [|done].
    intros k p Hk. apply getitem_nat. by apply lookup_app_l_Some.
Qed.


(** X3.  The methods that declare supports and loads check nothing and
    invalidate nothing: each appends exactly one entry to its list and
    leaves the stored displacements and reactions as they are, so after
    a [solve] the result accessors keep reporting the results of the
    model as it was solved, whatever loads are added afterwards. *)
Theorem results_survive_edits (self : ContinuousBridgeFEM num)
    (id : Z) (q fx fy mz : num) :
  let dist := add_distributed_load self id q in
  let point := add_point_load self id fx fy mz in
  loads dist = loads self ++ [Distributed id q] /\
  loads point = loads self ++ [Point id (fx, fy, mz)] /\
  get_displacements dist = get_displacements self /\
  get_displacements point = get_displacements self /\
  get_support_reactions dist = get_support_reactions self /\
  get_support_reactions point = get_support_reactions self /\
  (forall U R self1, solve self = (Ok (U, R), self1) ->
     get_reactions (add_point_load self1 id fx fy mz) = Ok R /\
     get_displacements (add_point_load self1 id fx fy mz) = Ok U /\
     get_reactions (add_distributed_load self1 id q) = Ok R /\
     get_displacements (add_distributed_load self1 id q) = Ok U).
Proof.
  simpl. do 6 (split; [done|]).
  intros U R self1 Hsolve. apply solve_ok in Hsolve as [_ ->]. done.
Qed.
End Builder.

(** ** Reading the reactions of the supports *)

Lemma in_index_range_spec (n : nat) (i : Z) :
  in_index_range n i = true <-> py_index n i <> None.
Proof.
  unfold in_index_range. rewrite andb_true_iff, py_index_none. lia.
Qed.

Lemma getitem_outcome {A : Type} (l : list A) (i : Z) :
  match getitem l i with
  | Ok _ => in_index_range (length l) i = true
  | Raise e => e = IndexError /\ in_index_range (length l) i = false
  end.
Proof.
  destruct (getitem l i) as [x|e] eqn:Hg.
  - apply getitem_ok in Hg as (k & Hk & _).
    apply in_index_range_spec. congruence.
  - apply getitem_raise in Hg as [-> Hg]. split; [done|].
    apply not_true_is_false. rewrite in_index_range_spec. tauto.
Qed.

Lemma getitem_nat_none {A : Type} (l : list A) (k : nat) :
  l !! k = None -> getitem l (Z.of_nat k) = Raise IndexError.
Proof.
  intros Hk. apply getitem_raise. split; [done|].
  apply py_index_none. apply lookup_ge_None in Hk. lia.
Qed.

Section SupportReactions.
Context {num : Type} `{Scalar num} `{LinAlg num}.

Lemma masked_reaction_outcome (self : ContinuousBridgeFEM num)
    (R : list num) (c : list bool) (k : nat) (idx : Z) :
  reactions self = Some R ->
  masked_reaction self c (Z.of_nat k) idx =
  match c !! k with
  | Some true => getitem R idx
  | Some false => Ok zero
  | None => Raise IndexError
  end.
Proof.
  intros HR. unfold masked_reaction, get_reactions. rewrite HR.
  destruct (c !! k) as [b|] eqn:Hk.
  - rewrite (getitem_nat _ _ _ Hk). by destruct b.
  - by rewrite (getitem_nat_none _ _ Hk).
Qed.

Lemma support_reaction_outcome (self : ContinuousBridgeFEM num)
    (R : list num) (s : Support) :
  reactions self = Some R ->
  match support_reaction self s with
  | Ok r => reportable (length R) s = true /\ r_node r = s_node s
  | Raise e => e = IndexError /\ reportable (length R) s = false
  end.
Proof.
  intros HR. unfold support_reaction, reportable. cbv zeta.
  change 0%Z with (Z.of_nat 0). change 1%Z with (Z.of_nat 1).
  change 2%Z with (Z.of_nat 2).
  rewrite !(masked_reaction_outcome self R) by done.
  pose proof (getitem_outcome R (s_node s * 3)) as Hg0.
  pose proof (getitem_outcome R (s_node s * 3 + 1)) as Hg1.
  pose proof (getitem_outcome R (s_node s * 3 + 2)) as Hg2.
  change (Z.of_nat 1) with 1%Z. change (Z.of_nat 2) with 2%Z.
  destruct (s_constraints s) as [|c0 [|c1 [|c2 cs]]]; simpl; [done|..].
  - destruct c0; [|done].
    destruct (getitem R (s_node s * 3)) as [x0|e0]; [done|].
    by destruct Hg0 as [-> _].
  - destruct c0, c1;
      destruct (getitem R (s_node s * 3)) as [x0|e0];
      destruct (getitem R (s_node s * 3 + 1)) as [x1|e1];
      cbn [exc_bind];
      repeat match goal with
      | Hx : _ = IndexError /\ _ |- _ => destruct Hx as [-> _]
      end; done.
  - destruct c0, c1, c2;
      destruct (getitem R (s_node s * 3)) as [x0|e0];
      destruct (getitem R (s_node s * 3 + 1)) as [x1|e1];
      destruct (getitem R (s_node s * 3 + 2)) as [x2|e2];
      cbn [exc_bind negb orb andb]; simpl;
      repeat match goal with
      | Hx : _ /\ _ |- _ => destruct Hx as [-> ->]
      | Hx : in_index_range _ _ = true |- _ => rewrite Hx
      end; done.
Qed.

(** X4.  On a solved model [get_support_reactions] returns one entry per
    support exactly when every support has at least three flags and
    every degree of freedom whose flag is set is an index of the
    reaction vector; in every other case it raises [IndexError]: a
    support declared with fewer than three flags is accepted by
    [add_support] and by [solve], and fails only here. *)
Theorem support_reactions_outcome (self : ContinuousBridgeFEM num)
    (R : list num) :
  reactions self = Some R ->
  match get_support_reactions self with
  | Ok rs =>
      forallb (reportable (length R)) (supports self) = true /\
      map r_node rs = map s_node (supports self)
  | Raise e =>
      e = IndexError /\
      forallb (reportable (length R)) (supports self) = false
  end.
Proof.
  intros HR. unfold get_support_reactions.
  induction (supports self) as [|s sups IH]; simpl; [done|].
  pose proof (support_reaction_outcome self R s HR) as Hs.
  destruct (support_reaction self s) as [r|e]; cbn [exc_bind].
  - destruct Hs as [-> Hr]. simpl.
    destruct (map_exc (support_reaction self) sups) as [rs|e];
      cbn [exc_bind]; [|done].
    destruct IH as [-> IH]. simpl. by rewrite Hr, IH.
  - destruct Hs as [-> ->]. done.
Qed.
End SupportReactions.

(** The theorem on the span over the rationals after [solve], and with a
    support of two flags declared after it. *)
Lemma support_reactions_outcome_witness :
  let self := snd (solve span_Qc) in
  let self' := add_support self 1 [false; true] in
  match reactions self' with
  | Some R =>
      match get_support_reactions self' with
      | Ok rs =>
          forallb (reportable (length R)) (supports self') = true /\
          map r_node rs = map s_node (supports self')
      | Raise e =>
          e = IndexError /\
          forallb (reportable (length R)) (supports self') = false
      end
  | None => False
  end.
Proof.
  intros self self'. destruct (reactions self') as [R|] eqn:HR.
  - exact (support_reactions_outcome self' R HR).
  - vm_compute in HR. discriminate.
Defined.

(** ** Boundary conditions *)

Lemma range_sorted (a n : nat) :
  StronglySorted Z.lt (map Z.of_nat (seq a n)).
Proof.
  revert a. induction n as [|n IH]; intros a; simpl; constructor.
  - apply IH.
  - apply List.Forall_forall. intros d Hd.
    apply in_map_iff in Hd as (j & <- & Hj). apply in_seq in Hj. lia.
Qed.

Lemma filter_sorted {A : Type} (lt : A -> A -> Prop) (p : A -> bool)
    (l : list A) :
  StronglySorted lt l -> StronglySorted lt (List.filter p l).
Proof.
  induction 1 as [|x l Hl IH Hx]; simpl; [constructor|].
  destruct (p x); [|done]. constructor; [done|].
  rewrite List.Forall_forall in *. intros y Hy.
  apply filter_In in Hy as [Hy _]. auto.
Qed.

Section Boundary.
Context {num : Type} `{Scalar num} `{LinAlg num}.

(** X5.  On a matrix and a vector of matching sizes
    [apply_boundary_conditions] never raises.  The free list it returns
    is strictly increasing and holds exactly the degrees of freedom
    [0 .. n-1] that no flag marks, where the flag at position [i] of a
    support at node [k] marks the degree of freedom [3k + i], for every
    position [i] of the list; the reduced matrix and vector are the
    entries of [K] and [F] at the free list. *)
Theorem apply_boundary_conditions_outcome (self : ContinuousBridgeFEM num)
    (K : list (list num)) (F : list num) :
  is_matrix (length F) (length F) K ->
  let fd := free_dofs self (length F) in
  apply_boundary_conditions self K F
    = Ok (submatrix K fd fd, subvector F fd, fd) /\
  StronglySorted Z.lt fd /\
  forall d, In d fd <->
    (0 <= d < Z.of_nat (length F))%Z /\
    ~ exists s i, In s (supports self) /\
        s_constraints s !! i = Some true /\
        d = (s_node s * 3 + Z.of_nat i)%Z.
Proof.
  intros HK fd.
  assert (forall d, In d fd -> (0 <= d < Z.of_nat (length F))%Z) as Hfd.
  { intros d Hd. by apply free_dofs_In in Hd as [Hd _]. }
  split; [|split].
  - unfold apply_boundary_conditions. cbv zeta. fold fd.
    rewrite (ix_ok (length F) K fd fd) by done. cbn [exc_bind].
    by rewrite (take_indices_ok F fd Hfd).
  - unfold fd. rewrite free_dofs_unmarked. unfold unmarked_dofs.
    apply filter_sorted, range_sorted.
  - intros d. unfold fd. rewrite free_dofs_In, <- constrained_spec.
    destruct (constrained (supports self) d); intuition congruence.
Qed.

Lemma flagged_outside (N : nat) (k : Z) (c : list bool) (d : Z) :
  (k < 0 \/ Z.of_nat N <= k)%Z -> length c <= 3 ->
  (0 <= d < Z.of_nat (N * 3))%Z ->
  flagged {| s_node := k; s_constraints := c |} d = false.
Proof.
  intros Hk Hc Hd. apply not_true_is_false. intros Hf.
  apply flagged_spec in Hf as (i & Hi & ->). simpl in *.
  apply lookup_lt_Some in Hi. lia.
Qed.

(** X6.  A support declared at a node id that is not one of
    [0 .. N-1], with at most three flags, constrains nothing: the free
    list and the result of [solve] are those of the model without it.
    This includes the negative ids that [add_element] and the loads
    accept as indices from the end. *)
Theorem support_outside_nodes_ignored (self : ContinuousBridgeFEM num)
    (k : Z) (c : list bool) :
  (k < 0 \/ Z.of_nat (length (nodes self)) <= k)%Z -> length c <= 3 ->
  free_dofs (add_support self k c) (length (nodes self) * 3)
    = free_dofs self (length (nodes self) * 3) /\
  fst (solve (add_support self k c)) = fst (solve self).
Proof.
  intros Hk Hc.
  assert (free_dofs (add_support self k c) (length (nodes self) * 3)
          = free_dofs self (length (nodes self) * 3)) as Hfd.
  { rewrite !free_dofs_unmarked. unfold unmarked_dofs.
    apply filter_pointwise. intros d Hd.
    apply in_map_iff in Hd as (j & <- & Hj). apply in_seq in Hj.
    simpl. rewrite constrained_app. unfold constrained at 2. simpl.
    rewrite (flagged_outside (length (nodes self))) by (done || lia).
    by rewrite !orb_false_r. }
  split; [done|].
  assert (solve_values (add_support self k c) = solve_values self) as Hval.
  { unfold solve_values, apply_boundary_conditions.
    change (assemble_global_matrix (add_support self k c))
      with (assemble_global_matrix self).
    destruct (assemble_global_matrix self) as [[K F]|] eqn:Hasm;
      cbn [exc_bind]; [|done].
    apply assemble_global_matrix_shape in Hasm as [_ HF].
    cbv zeta. by rewrite HF, Hfd. }
  unfold solve. rewrite Hval.
  by destruct (solve_values self) as [[U R]|e].
Qed.
End Boundary.

(** The theorem on the span over the rationals and a matrix of zeros. *)
Lemma apply_boundary_conditions_outcome_witness :
  let K : list (list Qc) := zeros2 6 6 in
  let F : list Qc := zeros 6 in
  let fd := free_dofs span_Qc (length F) in
  apply_boundary_conditions span_Qc K F
    = Ok (submatrix K fd fd, subvector F fd, fd) /\
  StronglySorted Z.lt fd /\
  forall d, In d fd <->
    (0 <= d < Z.of_nat (length F))%Z /\
    ~ exists s i, In s (supports span_Qc) /\
        s_constraints s !! i = Some true /\
        d = (s_node s * 3 + Z.of_nat i)%Z.
Proof.
  apply (apply_boundary_conditions_outcome span_Qc (zeros2 6 6) (zeros 6)).
  apply (zeros2_matrix 6 6).
Defined.

(** The theorem on the span over the rationals with a pin declared at
    node [-1]. *)
Lemma support_outside_nodes_ignored_witness :
  free_dofs (add_support span_Qc (-1) pin) (length (nodes span_Qc) * 3)
    = free_dofs span_Qc (length (nodes span_Qc) * 3) /\
  fst (solve (add_support span_Qc (-1) pin)) = fst (solve span_Qc).
Proof.
  apply (support_outside_nodes_ignored span_Qc (-1) pin).
  - left. lia.
  - simpl. lia.
Defined.

(** ** When assembly raises *)

(** A loop whose iterations succeed exactly on the items that satisfy
    [ok], as long as the invariant [P] holds, succeeds exactly on the
    lists of such items. *)
Lemma for_each_outcome {A S : Type} (P : S -> Prop) (ok : A -> bool)
    (l : list A) (body : A -> S -> Exc S) (s : S) :
  (forall x t, In x l -> P t ->
     match body x t with
     | Ok t' => ok x = true /\ P t'
     | Raise _ => ok x = false
     end) ->
  P s ->
  match for_each l body s with
  | Ok s' => forallb ok l = true /\ P s'
  | Raise _ => forallb ok l = false
  end.
Proof.
  revert s. induction l as [|x l IH]; intros s Hbody Hs; simpl; [done|].
  pose proof (Hbody x s (or_introl eq_refl) Hs) as Hx.
  destruct (body x s) as [t|e]; cbn [exc_bind].
  - destruct Hx as [-> Ht]. simpl. apply IH; [|done].
    intros y u Hy. apply Hbody. by right.
  - by rewrite Hx.
Qed.

Lemma in_index_range_dof (N : nat) (k i : Z) :
  (0 <= i < 3)%Z ->
  in_index_range (N * 3) (k * 3 + i) = in_index_range N k.
Proof.
  intros Hi. unfold in_index_range. apply eq_true_iff_eq.
  rewrite !andb_true_iff, !Z.leb_le, !Z.ltb_lt. lia.
Qed.

Lemma in_index_range_dof0 (N : nat) (k : Z) :
  in_index_range (N * 3) (k * 3) = in_index_range N k.
Proof.
  rewrite <- (in_index_range_dof N k 0) by lia. by rewrite Z.add_0_r.
Qed.

Section AssemblyOutcome.
Context {num : Type} `{Scalar num} `{LinAlg num}.

Lemma iadd_at_outcome (v : list num) (i : Z) (x : num) :
  match iadd_at v i x with
  | Ok v' => in_index_range (length v) i = true /\ length v' = length v
  | Raise _ => in_index_range (length v) i = false
  end.
Proof.
  unfold iadd_at.
  destruct (py_index (length v) i) as [k|] eqn:Hk.
  - split; [|apply length_alter].
    apply in_index_range_spec. congruence.
  - apply not_true_is_false. rewrite in_index_range_spec. tauto.
Qed.

Lemma iadd_at2_outcome (r c : nat) (K : list (list num)) (i j : Z)
    (x : num) :
  is_matrix r c K ->
  match iadd_at2 K i j x with
  | Ok K' =>
      (in_index_range r i && in_index_range c j = true) /\ is_matrix r c K'
  | Raise _ => in_index_range r i && in_index_range c j = false
  end.
Proof.
  intros HK. pose proof HK as [Hlen Hrows].
  destruct (iadd_at2 K i j x) as [K'|e] eqn:Hadd.
  - split; [|by apply (iadd_at2_matrix r c K K' i j x)].
    unfold iadd_at2 in Hadd. rewrite Hlen in Hadd.
    destruct (py_index r i) as [a|] eqn:Ha; [|discriminate].
    destruct (K !! a) as [row|] eqn:Hrow; [|discriminate].
    rewrite (Forall_lookup_1 _ K a row Hrows Hrow) in Hadd.
    destruct (py_index c j) as [b|] eqn:Hb; [|discriminate].
    apply andb_true_iff. rewrite !in_index_range_spec. split; congruence.
  - unfold iadd_at2 in Hadd. rewrite Hlen in Hadd.
    apply not_true_is_false. rewrite andb_true_iff, !in_index_range_spec.
    intros [Ha Hb].
    destruct (py_index r i) as [a|] eqn:Hai; [|done].
    pose proof (py_index_lt _ _ _ Hai) as Hlt.
    destruct (lookup_lt_is_Some_2 K a) as [row Hrow]; [lia|].
    rewrite Hrow in Hadd.
    rewrite (Forall_lookup_1 _ K a row Hrows Hrow) in Hadd.
    by destruct (py_index c j).
Qed.

Lemma scatter_stiffness_outcome (N : nat) (node1 node2 : Z)
    (k K : list (list num)) :
  is_matrix (N * 3) (N * 3) K ->
  match scatter_stiffness (dof_map node1 node2) k K with
  | Ok K' =>
      (in_index_range N node1 && in_index_range N node2 = true) /\
      is_matrix (N * 3) (N * 3) K'
  | Raise _ => in_index_range N node1 && in_index_range N node2 = false
  end.
Proof.
  intros HK. unfold scatter_stiffness.
  set (dm := dof_map node1 node2).
  set (inr := fun m => in_index_range (N * 3) (local_dof dm m)).
  pose proof (for_each_outcome (is_matrix (N * 3) (N * 3))
    (fun m => forallb (fun j => inr m && inr j) (seq 0 6)) (seq 0 6)
    (fun m K0 => for_each (seq 0 6) (fun j K1 =>
       iadd_at2 K1 (local_dof dm m) (local_dof dm j) (local_mat k m j)) K0)
    K) as Hloop.
  assert (forallb (fun m => forallb (fun j => inr m && inr j) (seq 0 6))
            (seq 0 6)
          = in_index_range N node1 && in_index_range N node2) as Hall.
  { unfold inr, dm, local_dof. simpl.
    rewrite !in_index_range_dof by lia. rewrite !in_index_range_dof0.
    by destruct (in_index_range N node1), (in_index_range N node2). }
  rewrite Hall in Hloop. apply Hloop; [|done].
  intros m T _ HT.
  apply (for_each_outcome (is_matrix (N * 3) (N * 3))
    (fun j => inr m && inr j)); [|done].
  intros j T1 _ HT1. by apply iadd_at2_outcome.
Qed.

Lemma assemble_load_outcome (self : ContinuousBridgeFEM num)
    (load : Load num) (F : list num) :
  length F = length (nodes self) * 3 ->
  match assemble_load self load F with
  | Ok F' => valid_load self load = true /\ length F' = length F
  | Raise _ => valid_load self load = false
  end.
Proof.
  intros HF. destruct load as [element_id q | node_id [[fx fy] mz]];
    simpl.
  - destruct (getitem (elements self) element_id) as [element|e];
      cbn [exc_bind]; [|done].
    unfold valid_element. destruct (e_nodes element) as [node1 node2].
    set (dm := dof_map node1 node2).
    set (f := equivalent_nodal_loads (beam_of element) q).
    pose proof (for_each_outcome
      (fun F0 : list num => length F0 = length F)
      (fun m => in_index_range (length F) (local_dof dm m)) (seq 0 6)
      (fun m F0 => iadd_at F0 (local_dof dm m) (local_vec f m)) F) as Hloop.
    assert (forallb (fun m => in_index_range (length F) (local_dof dm m))
              (seq 0 6)
            = in_index_range (length (nodes self)) node1 &&
              in_index_range (length (nodes self)) node2) as Hall.
    { unfold dm, local_dof. rewrite HF. simpl.
      rewrite !in_index_range_dof by lia. rewrite !in_index_range_dof0.
      by destruct (in_index_range _ node1), (in_index_range _ node2). }
    rewrite Hall in Hloop. simpl. apply Hloop; [|done].
    intros m F0 _ HF0. pose proof (iadd_at_outcome F0 (local_dof dm m)
      (local_vec f m)) as Hadd.
    destruct (iadd_at F0 _ _) as [F1|e]; rewrite HF0 in Hadd; [|done].
    destruct Hadd as [Hin Hlen]. split; [done | congruence].
  - pose proof (iadd_at_outcome F (node_id * 3) fx) as Ha0.
    rewrite HF, in_index_range_dof0 in Ha0.
    destruct (iadd_at F (node_id * 3) fx) as [F1|e]; cbn [exc_bind];
      [|done].
    destruct Ha0 as [Hin Ha0].
    pose proof (iadd_at_outcome F1 (node_id * 3 + 1) fy) as Ha1.
    rewrite Ha0, in_index_range_dof in Ha1 by lia.
    destruct (iadd_at F1 (node_id * 3 + 1) fy) as [F2|e]; cbn [exc_bind];
      [|congruence].
    destruct Ha1 as [_ Ha1].
    pose proof (iadd_at_outcome F2 (node_id * 3 + 2) mz) as Ha2.
    rewrite Ha1, in_index_range_dof in Ha2 by lia.
    destruct (iadd_at F2 (node_id * 3 + 2) mz) as [F3|e]; [|congruence].
    destruct Ha2 as [_ Ha2]. split; [done | congruence].
Qed.

(** Assembly returns exactly on the models whose references are valid. *)
Lemma assemble_returns_iff_valid (self : ContinuousBridgeFEM num) :
  match assemble_global_matrix self with
  | Ok _ => valid_references self = true
  | Raise _ => valid_references self = false
  end.
Proof.
  unfold assemble_global_matrix, valid_references. cbv zeta.
  set (n := length (nodes self) * 3).
  pose proof (for_each_outcome (is_matrix n n)
    (valid_element (length (nodes self))) (elements self)
    (fun element K0 =>
       let '(node1, node2) := e_nodes element in
       scatter_stiffness (dof_map node1 node2)
         (stiffness_matrix (beam_of element)) K0) (zeros2 n n)) as HKl.
  pose proof (for_each_outcome (fun F0 : list num => length F0 = n)
    (valid_load self) (loads self) (assemble_load self) (zeros n)) as HFl.
  destruct (for_each (elements self) _ (zeros2 n n)) as [K1|];
    cbn [exc_bind].
  - destruct HKl as [-> _].
    { intros element T _ HT. unfold valid_element.
      destruct (e_nodes element) as [node1 node2]. simpl.
      by apply scatter_stiffness_outcome. }
    { apply zeros2_matrix. }
    simpl.
    assert (forall load F0, In load (loads self) -> length F0 = n ->
      match assemble_load self load F0 with
      | Ok F1 => valid_load self load = true /\ length F1 = n
      | Raise _ => valid_load self load = false
      end) as Hload.
    { intros load F0 _ HF0.
      pose proof (assemble_load_outcome self load F0 HF0) as Hl.
      destruct (assemble_load self load F0); [|done].
      destruct Hl. split; [done | congruence]. }
    specialize (HFl Hload (length_zeros n)).
    destruct (for_each (loads self) _ (zeros n)) as [F1|];
      cbn [exc_bind]; [by destruct HFl | done].
  - rewrite HKl; [done| |apply zeros2_matrix].
    intros element T _ HT. unfold valid_element.
    destruct (e_nodes element) as [node1 node2]. simpl.
    by apply scatter_stiffness_outcome.
Qed.

(** X7.  [assemble_global_matrix] returns exactly when every reference
    of the model can be followed as a Python index: both node ids of
    every element lie in [-N, N), every distributed load names an element
    id in [-M, M) and every point load a node id in [-N, N) ([N] nodes,
    [M] elements).  It then returns a [3N] by [3N] matrix and a vector of
    length [3N]; in every other case it raises [IndexError]. *)
Theorem assemble_global_matrix_outcome (self : ContinuousBridgeFEM num) :
  match assemble_global_matrix self with
  | Ok (K, F) =>
      valid_references self = true /\
      is_matrix (length (nodes self) * 3) (length (nodes self) * 3) K /\
      length F = length (nodes self) * 3
  | Raise e => e = IndexError /\ valid_references self = false
  end.
Proof.
  pose proof (assemble_returns_iff_valid self) as Hvalid.
  destruct (assemble_global_matrix self) as [[K F]|e] eqn:Hasm.
  - split; [done|]. by apply assemble_global_matrix_shape.
  - split; [|done]. by apply assemble_global_matrix_raise in Hasm.
Qed.
End AssemblyOutcome.

(** ** The element stiffness matrix *)

Section ElementMatrix.
Context {num : Type} `{Scalar num}.

(** X8.  The element stiffness matrix has six rows of six entries and is
    symmetric entry by entry, in any arithmetic: [k[m, n]] and [k[n, m]]
    are assigned the same expression.  Axial and bending terms are
    uncoupled: the entries that link an axial degree of freedom (0, 3)
    and a bending one (1, 2, 4, 5) stay at the zero of [np.zeros]. *)
Theorem stiffness_matrix_shape (self : SimpleFEMBeam num) :
  is_matrix 6 6 (stiffness_matrix self) /\
  (forall m j, m < 6 -> j < 6 ->
     local_mat (stiffness_matrix self) m j =
     local_mat (stiffness_matrix self) j m) /\
  (forall m j, In m [0; 3] -> In j [1; 2; 4; 5] ->
     local_mat (stiffness_matrix self) m j = zero /\
     local_mat (stiffness_matrix self) j m = zero).
Proof.
  split; [|split].
  - split; [done|]. unfold stiffness_matrix. cbv zeta.
    repeat constructor.
  - intros m j Hm Hj.
    do 6 (destruct m as [|m];
          [do 6 (destruct j as [|j]; [reflexivity|]); lia|]).
    lia.
  - simpl. intros m j [<-|[<-|[]]] [<-|[<-|[<-|[<-|[]]]]];
      split; reflexivity.
Qed.
End ElementMatrix.

Section RigidBodyModes.
Local Open Scope R_scope.

(** X9.  In exact arithmetic the element stiffness matrix of an element
    of nonzero length sends the three rigid-body motions to zero: the
    axial translation [1,0,0,1,0,0], the transverse translation
    [0,1,0,0,1,0] and the rotation about the first node
    [0,0,1,0,L,1]. *)
Theorem stiffness_matrix_rigid_body_modes (self : SimpleFEMBeam R) :
  beam_L self <> 0 ->
  let k := stiffness_matrix self in
  matvec k [1; 0; 0; 1; 0; 0] = zeros 6 /\
  matvec k [0; 1; 0; 0; 1; 0] = zeros 6 /\
  matvec k [0; 0; 1; 0; beam_L self; 1] = zeros 6.
Proof.
  intros HL k. unfold k, stiffness_matrix, matvec, zeros. cbv zeta.
  simpl. rsimp.
  repeat split; repeat (apply (f_equal2 cons)); try reflexivity;
    field; done.
Qed.

Lemma stiffness_matrix_rigid_body_modes_witness :
  let self := {| beam_L := 2; beam_E := 1; beam_A := 1; beam_I := 1 |} in
  let k := stiffness_matrix self in
  matvec k [1; 0; 0; 1; 0; 0] = zeros 6 /\
  matvec k [0; 1; 0; 0; 1; 0] = zeros 6 /\
  matvec k [0; 0; 1; 0; beam_L self; 1] = zeros 6.
Proof.
  intros self.
  apply (stiffness_matrix_rigid_body_modes self). simpl. lra.
Defined.
End RigidBodyModes.

(** ** Equilibrium of the applied loads and the reactions *)

Section Resultants.
Local Open Scope R_scope.








End Resultants.

Section LoadVector.
Local Open Scope R_scope.



End LoadVector.

Section StiffnessRows.
Local Open Scope R_scope.






End StiffnessRows.

Section Equilibrium.
Local Open Scope R_scope.








End Equilibrium.


(** ** The reported reactions balance the loads *)


Section ReportedReactions.
Local Open Scope R_scope.



End ReportedReactions.


(** ** The outcomes of [solve] *)

Section ScatterReturns.
Context {num : Type} `{Scalar num} `{LinAlg num}.


End ScatterReturns.

Section SolveOutcome.
Local Open Scope R_scope.




End SolveOutcome.

(** ** Order of declaration, and solving again *)

Section Composition.
Context {num : Type} `{Scalar num} `{LinAlg num}.

Lemma constrained_permutation (sups sups' : list Support) (d : Z) :
  Permutation sups sups' -> constrained sups' d = constrained sups d.
Proof.
  intros Hp. apply eq_true_iff_eq. rewrite !constrained_spec.
  split; intros (s & i & Hs & Hrest); exists s, i; split; try done.
  - by apply (Permutation_in s (Permutation_sym Hp)).
  - by apply (Permutation_in s Hp).
Qed.

(** X13.  The order in which the supports are declared does not matter
    to the analysis: two models with the same nodes, elements and loads
    whose support lists are permutations of each other have the same
    free list and the same result of [solve]. *)
Theorem supports_order_irrelevant (self self' : ContinuousBridgeFEM num) :
  nodes self' = nodes self -> elements self' = elements self ->
  loads self' = loads self ->
  Permutation (supports self) (supports self') ->
  (forall n, free_dofs self' n = free_dofs self n) /\
  fst (solve self') = fst (solve self).
Proof.
  intros Hn He Hl Hp.
  assert (forall n, free_dofs self' n = free_dofs self n) as Hfd.
  { apply free_dofs_same_marks. intros d.
    by apply constrained_permutation. }
  split; [done|]. unfold solve.
  rewrite (solve_values_same_system self self' Hn He Hl Hfd).
  by destruct (solve_values self) as [[U R]|e].
Qed.

(** X14.  [solve] reads nothing of what an earlier [solve] stored:
    solving the object that a [solve] left behind gives the same outcome
    again and leaves that object as it is, so a second call neither
    fails where the first succeeded nor changes the stored results. *)
Theorem solve_again (self : ContinuousBridgeFEM num) :
  let self1 := snd (solve self) in
  fst (solve self1) = fst (solve self) /\ snd (solve self1) = self1.
Proof.
  intros self1.
  assert (solve_values self1 = solve_values self) as Hval.
  { apply solve_values_same_system; unfold self1, solve;
      destruct (solve_values self) as [[U R]|e]; done. }
  unfold solve at 1 3. rewrite Hval. unfold self1, solve.
  by destruct (solve_values self) as [[U R]|e].
Qed.
End Composition.

(** The theorem on the span over the rationals with its supports
    declared in the other order. *)
Lemma supports_order_irrelevant_witness :
  let self' :=
    {| nodes := nodes span_Qc; elements := elements span_Qc;
       supports := rev (supports span_Qc); loads := loads span_Qc;
       displacements := None; reactions := None |} in
  (forall n, free_dofs self' n = free_dofs span_Qc n) /\
  fst (solve self') = fst (solve span_Qc).
Proof.
  intros self'.
  apply (supports_order_irrelevant span_Qc self');
    [reflexivity | reflexivity | reflexivity |].
  apply Permutation_rev.
Defined.

(** ** Supports at negative node ids *)

Lemma getitem_from_end {A : Type} (l : list A) (N : nat) (k i : Z) :
  length l = N * 3 -> (- Z.of_nat N <= k < 0)%Z -> (0 <= i < 3)%Z ->
  getitem l (k * 3 + i) = getitem l ((Z.of_nat N + k) * 3 + i).
Proof.
  intros Hlen Hk Hi. unfold getitem.
  rewrite py_index_neg by lia. rewrite py_index_nonneg by lia.
  replace (Z.to_nat (Z.of_nat (length l) + (k * 3 + i)))
    with (Z.to_nat ((Z.of_nat N + k) * 3 + i)) by lia.
  done.
Qed.

Section NegativeNodes.
Context {num : Type} `{Scalar num} `{LinAlg num}.

(** X15.  [get_support_reactions] reads the reaction vector with Python
    indexing, so for a support declared at a negative node id [k] in
    [-N, 0) it reports the reactions of the node [N + k], although that
    support constrained nothing: the entry it builds has the same three
    components, and fails in the same cases, as the entry of the same
    constraint list at node [N + k]. *)
Theorem negative_node_support_reads_from_end
    (self : ContinuousBridgeFEM num) (R : list num) (k : Z)
    (c : list bool) :
  let N := length (nodes self) in
  reactions self = Some R -> length R = N * 3 ->
  (- Z.of_nat N <= k < 0)%Z ->
  match support_reaction self {| s_node := k; s_constraints := c |},
        support_reaction self
          {| s_node := Z.of_nat N + k; s_constraints := c |} with
  | Ok r, Ok r' =>
      r_node r = k /\ r_node r' = (Z.of_nat N + k)%Z /\
      r_Rx r = r_Rx r' /\ r_Ry r = r_Ry r' /\ r_Mz r = r_Mz r'
  | Raise e, Raise e' => e = e'
  | _, _ => False
  end.
Proof.
  intros N HR Hlen Hk. unfold support_reaction. cbv zeta.
  cbn [s_node s_constraints].
  assert (forall j i, (0 <= i < 3)%Z ->
    masked_reaction self c j (k * 3 + i)
    = masked_reaction self c j ((Z.of_nat N + k) * 3 + i)) as Halias.
  { intros j i Hi. unfold masked_reaction, get_reactions. rewrite HR.
    destruct (getitem c j) as [[|]|]; cbn [exc_bind]; try done.
    by apply (getitem_from_end R N). }
  pose proof (Halias 0%Z 0%Z ltac:(lia)) as A0.
  rewrite !Z.add_0_r in A0. rewrite A0.
  rewrite (Halias 1%Z 1%Z) by lia. rewrite (Halias 2%Z 2%Z) by lia.
  clear A0 Halias.
  destruct (masked_reaction self c 0 _) as [Rx|e0]; simpl; [|done].
  destruct (masked_reaction self c 1 _) as [Ry|e1]; simpl; [|done].
  destruct (masked_reaction self c 2 _) as [Mz|e2]; simpl; [|done].
  done.
Qed.
End NegativeNodes.

(** The theorem on the solved span over the rationals, for a pin at
    node [-1]. *)
Lemma negative_node_support_reads_from_end_witness :
  let self := snd (solve span_Qc) in
  match reactions self with
  | Some R =>
      match support_reaction self
              {| s_node := -1; s_constraints := pin |},
            support_reaction self
              {| s_node := Z.of_nat (length (nodes self)) + -1;
                 s_constraints := pin |} with
      | Ok r, Ok r' =>
          r_node r = (-1)%Z /\
          r_node r' = (Z.of_nat (length (nodes self)) + -1)%Z /\
          r_Rx r = r_Rx r' /\ r_Ry r = r_Ry r' /\ r_Mz r = r_Mz r'
      | Raise e, Raise e' => e = e'
      | _, _ => False
      end
  | None => False
  end.
Proof.
  intros self. destruct (reactions self) as [R|] eqn:HR.
  - apply (negative_node_support_reads_from_end self R (-1) pin HR).
    + vm_compute in HR. injection HR as <-. reflexivity.
    + simpl. lia.
  - vm_compute in HR. discriminate.
Defined.

(** ** The model without nodes *)

Section EmptyModel.
Local Open Scope R_scope.

(** X16.  On a model without nodes [solve] returns empty displacement
    and reaction vectors, without an error, when there are no elements
    and no loads either (supports may be declared); as soon as an
    element or a load is present it raises [IndexError] and leaves the
    object as it was. *)
Theorem solve_without_nodes (self : ContinuousBridgeFEM R) :
  nodes self = [] ->
  match solve self with
  | (Ok (U, R0), self') =>
      U = [] /\ R0 = [] /\ elements self = [] /\ loads self = [] /\
      displacements self' = Some [] /\ reactions self' = Some []
  | (Raise e, self') =>
      e = IndexError /\ self' = self /\
      (elements self <> [] \/ loads self <> [])
  end.
Proof.
  intros Hnodes.
  pose proof (assemble_returns_iff_valid self) as Hvalid.
  assert (forall k, in_index_range 0 k = false) as Hnone.
  { intros k. unfold in_index_range. apply andb_false_iff.
    rewrite Z.leb_gt, Z.ltb_ge. simpl. lia. }
  assert (valid_references self = true ->
          elements self = [] /\ loads self = []) as Hempty.
  { unfold valid_references. rewrite Hnodes. simpl.
    destruct (elements self) as [|el els] eqn:Hel.
    - destruct (loads self) as [|[e q|k v] ls]; [by split| |]; simpl;
        unfold valid_load; rewrite ?Hel, ?Hnodes; simpl.
      + destruct (getitem [] e) as [el|] eqn:Hg; [|simpl; discriminate].
        apply getitem_ok in Hg as (j & _ & Hj).
        rewrite lookup_nil in Hj. discriminate.
      + rewrite Hnone. simpl. discriminate.
    - simpl. unfold valid_element. rewrite Hnone. simpl. discriminate. }
  destruct (assemble_global_matrix self) as [[K F]|e] eqn:Hasm.
  - destruct (Hempty Hvalid) as [Hel Hl].
    pose proof (solve_values_reduced self K F Hasm) as Hval.
    apply assemble_global_matrix_shape in Hasm as [[HK _] HF].
    rewrite Hnodes in HK, HF. simpl in HK, HF.
    destruct K; [|discriminate]. destruct F; [|discriminate].
    cbv zeta in Hval. rewrite free_dofs_unmarked in Hval.
    change (solve_values self = Ok ([], [])) in Hval.
    unfold solve. by rewrite Hval.
  - pose proof (assemble_global_matrix_raise self e Hasm) as ->.
    rewrite (solve_assemble_raise self IndexError Hasm).
    split; [done|]. split; [done|].
    unfold valid_references in Hvalid. clear Hempty.
    destruct (elements self), (loads self); solve [by left | by right].
Qed.

Lemma solve_without_nodes_witness :
  let self : ContinuousBridgeFEM R := add_support init 0 pin in
  match solve self with
  | (Ok (U, R0), self') =>
      U = [] /\ R0 = [] /\ elements self = [] /\ loads self = [] /\
      displacements self' = Some [] /\ reactions self' = Some []
  | (Raise e, self') =>
      e = IndexError /\ self' = self /\
      (elements self <> [] \/ loads self <> [])
  end.
Proof.
  intros self. apply (solve_without_nodes self). reflexivity.
Defined.
End EmptyModel.
